(** * Frame ring buffer and streaming service of the ESP32 Wi-Fi camera

    A shallow embedding of [main/core/frame_buffer.hpp] and
    [main/core/streaming_service.hpp], of the camera driver
    [main/drivers/esp_camera_driver.hpp], of the event handler of
    [main/core/wifi_manager.hpp] and of the mocks of the unit tests, followed
    by the properties the design document states about the buffer and the
    service, and by further properties read off the code.

    Conventions of the embedding:
    - a [size_t], [uint32_t], [uint8_t] or [int64_t] value is a [Z]; every
      arithmetic operation of the source is followed by the wrap-around of
      its type ([size_t], [uint32_t], ... below are the casts);
    - the array [slots_] is a list, [slots_[i]] is list lookup and update
      ([[]] stands for [nullptr]);
    - the bytes of a [malloc]ed region are a [list byte]; a pointer argument
      that may be null is an [option];
    - every method takes the object and returns the updated object together
      with its C++ return value;
    - the mutex only serialises the methods, so a method is one atomic step. *)

From stdpp Require Import base numbers list.
From Stdlib Require Import Strings.Byte.

Local Open Scope Z_scope.

(** ** Build configuration and machine integers *)

(** [SIZE_BITS] is the width of [size_t] (32 on the ESP32, 64 on the host that
    runs the unit tests); [ESP_PLATFORM] selects the [#ifdef ESP_PLATFORM]
    branches. *)
Class Build := { SIZE_BITS : Z; ESP_PLATFORM : bool }.

Definition wrap (bits x : Z) : Z := x mod 2 ^ bits.

Definition wrap_signed (bits x : Z) : Z :=
  (x + 2 ^ (bits - 1)) mod 2 ^ bits - 2 ^ (bits - 1).

Definition uint32_t : Z → Z := wrap 32.
Definition int64_t : Z → Z := wrap_signed 64.
Definition size_t `{Build} : Z → Z := wrap SIZE_BITS.

(** ** The allocator, as seen by one call of [init]

    [new_nothrow] tells whether [new (std::nothrow) FrameSlot[n]] succeeds;
    [malloc psram i] is the result of the allocation for slot [i]: [None] for
    a null pointer, otherwise the (indeterminate) initial bytes of the region;
    the two semaphore fields tell whether FreeRTOS can create the mutex and
    the binary semaphore. *)
Record Heap := mkHeap {
  new_nothrow : bool;
  malloc : bool → nat → option (nat → byte);
  xSemaphoreCreateMutex : bool;
  xSemaphoreCreateBinary : bool
}.

Definition region (garbage : nat → byte) (bytes : Z) : list byte :=
  garbage <$> seq 0 (Z.to_nat bytes).

(** [memcpy dst src n]: the first [n] bytes of [dst] are replaced by the first
    [n] bytes of [src]. *)
Definition memcpy (dst src : list byte) (n : Z) : list byte :=
  take (Z.to_nat n) src ++ drop (Z.to_nat n) dst.

(** ** frame_buffer.hpp *)

Module FrameBuffer.

Record FrameSlot := mkFrameSlot {
  slot_data : list byte;
  slot_capacity : Z;
  slot_size : Z;
  slot_timestamp_us : Z;
  slot_occupied : bool;
  slot_reading : bool
}.

(** The default member initialisers of [FrameSlot]. *)
Definition default_slot : FrameSlot := mkFrameSlot [] 0 0 0 false false.

Record t := mk {
  slots_ : list FrameSlot;
  num_slots_ : Z;
  max_frame_size_ : Z;
  write_idx_ : Z;
  read_idx_ : Z;
  count_ : Z;
  frames_dropped_ : Z;
  initialized_ : bool;
  mutex_ : bool
}.

(** [FrameBuffer() = default]. *)
Definition empty_buffer : t := mk [] 0 0 0 0 0 0 false false.

(** [slots_[i]] as an rvalue and as an lvalue. *)
Definition slot_at (slots : list FrameSlot) (i : Z) : FrameSlot :=
  default default_slot (slots !! Z.to_nat i).

Definition slot_update (slots : list FrameSlot) (i : Z)
    (f : FrameSlot → FrameSlot) : list FrameSlot :=
  <[Z.to_nat i := f (slot_at slots i)]> slots.

Definition with_slots (b : t) (s : list FrameSlot) : t :=
  mk s (num_slots_ b) (max_frame_size_ b) (write_idx_ b) (read_idx_ b)
     (count_ b) (frames_dropped_ b) (initialized_ b) (mutex_ b).
Definition with_frames_dropped (b : t) (d : Z) : t :=
  mk (slots_ b) (num_slots_ b) (max_frame_size_ b) (write_idx_ b) (read_idx_ b)
     (count_ b) d (initialized_ b) (mutex_ b).

(** What a successful [peek] stores through its out-pointers: [*data] is
    the address of the buffer of slot [pk_slot], [*size] and, when the
    third pointer is not null, [*timestamp_us]. *)
Record Peeked := mkPeeked {
  pk_slot : Z;
  pk_size : Z;
  pk_timestamp_us : option Z
}.

Section Methods.
Context {B : Build}.

Definition deinit (b : t) : t :=
  mk [] 0 0 0 0 0 0 false (if ESP_PLATFORM then false else mutex_ b).

(** The allocation loop of [init], from index [i], [todo] slots to go.
    [false] when a [malloc] returns null. *)
Fixpoint alloc_loop (h : Heap) (use_psram : bool) (max_frame_size : Z)
    (i todo : nat) (slots : list FrameSlot) : list FrameSlot * bool :=
  match todo with
  | O => (slots, true)
  | S todo' =>
      match malloc h (ESP_PLATFORM && use_psram) i with
      | None => (slots, false)
      | Some garbage =>
          let s := slot_at slots (Z.of_nat i) in
          let s' := mkFrameSlot (region garbage max_frame_size) max_frame_size
                      (slot_size s) (slot_timestamp_us s)
                      (slot_occupied s) (slot_reading s) in
          alloc_loop h use_psram max_frame_size (S i) todo' (<[i := s']> slots)
      end
  end.

Definition init (b : t) (num_slots max_frame_size : Z) (use_psram : bool)
    (h : Heap) : t * bool :=
  if initialized_ b then (b, true)
  else if (num_slots =? 0) || (max_frame_size =? 0) then (b, false)
  else
    let b1 := mk (slots_ b) num_slots max_frame_size (write_idx_ b)
                (read_idx_ b) (count_ b) (frames_dropped_ b)
                (initialized_ b) (mutex_ b) in
    if negb (new_nothrow h) then (with_slots b1 [], false)
    else
      let fresh := replicate (Z.to_nat num_slots) default_slot in
      let '(slots, ok) :=
        alloc_loop h use_psram max_frame_size 0 (Z.to_nat num_slots) fresh in
      let b2 := with_slots b1 slots in
      if negb ok then (deinit b2, false)
      else if ESP_PLATFORM && negb (xSemaphoreCreateMutex h) then (deinit b2, false)
      else
        (mk slots num_slots max_frame_size (write_idx_ b) (read_idx_ b)
            (count_ b) (frames_dropped_ b) true
            (if ESP_PLATFORM then true else mutex_ b), true).

Definition is_null {A} (p : option A) : bool :=
  match p with None => true | Some _ => false end.

(** [push(data, size, timestamp_us)]; [data] is [None] for a null
    pointer, otherwise the bytes readable at the pointer. *)
Definition push (b : t) (data : option (list byte)) (size timestamp_us : Z)
    : t * bool :=
  if negb (initialized_ b) || is_null data || (size =? 0) then (b, false)
  else if size >? max_frame_size_ b then (b, false)
  else
    let full := count_ b >=? num_slots_ b in
    if full && slot_reading (slot_at (slots_ b) (read_idx_ b)) then
      (with_frames_dropped b (uint32_t (frames_dropped_ b + 1)), true)
    else
      let b1 :=
        if full then
          let s := slot_update (slots_ b) (read_idx_ b)
                     (λ s, mkFrameSlot (slot_data s) (slot_capacity s) (slot_size s)
                             (slot_timestamp_us s) false (slot_reading s)) in
          mk s (num_slots_ b) (max_frame_size_ b) (write_idx_ b)
             (size_t (read_idx_ b + 1) `mod` num_slots_ b)
             (size_t (count_ b - 1))
             (uint32_t (frames_dropped_ b + 1))
             (initialized_ b) (mutex_ b)
        else b in
      let s := slot_update (slots_ b1) (write_idx_ b1)
                 (λ s, mkFrameSlot (memcpy (slot_data s) (default [] data) size)
                         (slot_capacity s) size timestamp_us true false) in
      (mk s (num_slots_ b1) (max_frame_size_ b1)
          (size_t (write_idx_ b1 + 1) `mod` num_slots_ b1)
          (read_idx_ b1)
          (size_t (count_ b1 + 1))
          (frames_dropped_ b1) (initialized_ b1) (mutex_ b1), true).

(** [peek(data, size, timestamp_us)]; each argument tells whether the
    out-pointer is non-null. *)
Definition peek (b : t) (data size timestamp_us : bool) : t * option Peeked :=
  if negb (initialized_ b) || negb data || negb size then (b, None)
  else if count_ b =? 0 then (b, None)
  else
    let s := slot_update (slots_ b) (read_idx_ b)
               (λ s, mkFrameSlot (slot_data s) (slot_capacity s) (slot_size s)
                       (slot_timestamp_us s) (slot_occupied s) true) in
    let slot := slot_at s (read_idx_ b) in
    (with_slots b s,
     Some (mkPeeked (read_idx_ b) (slot_size slot)
             (if timestamp_us then Some (slot_timestamp_us slot) else None))).

Definition pop (b : t) : t :=
  if negb (initialized_ b) then b
  else if count_ b >? 0 then
    let s := slot_update (slots_ b) (read_idx_ b)
               (λ s, mkFrameSlot (slot_data s) (slot_capacity s) (slot_size s)
                       (slot_timestamp_us s) false false) in
    mk s (num_slots_ b) (max_frame_size_ b) (write_idx_ b)
       (size_t (read_idx_ b + 1) `mod` num_slots_ b)
       (size_t (count_ b - 1))
       (frames_dropped_ b) (initialized_ b) (mutex_ b)
  else b.

Definition available (b : t) : Z := count_ b.
Definition empty (b : t) : bool := count_ b =? 0.
Definition full (b : t) : bool := initialized_ b && (count_ b >=? num_slots_ b).
Definition frames_dropped (b : t) : Z := frames_dropped_ b.
Definition capacity (b : t) : Z := num_slots_ b.
Definition max_frame_size (b : t) : Z := max_frame_size_ b.
Definition is_initialized (b : t) : bool := initialized_ b.

(** The loop of [clear], over [i = 0 .. num_slots_ - 1]. *)
Definition clear_loop (slots : list FrameSlot) (n : Z) : list FrameSlot :=
  foldl (λ acc i, slot_update acc (Z.of_nat i)
                    (λ s, mkFrameSlot (slot_data s) (slot_capacity s) (slot_size s)
                            (slot_timestamp_us s) false false))
        slots (seq 0 (Z.to_nat n)).

Definition clear (b : t) : t :=
  if negb (initialized_ b) then b
  else
    mk (clear_loop (slots_ b) (num_slots_ b)) (num_slots_ b) (max_frame_size_ b)
       0 0 0 (frames_dropped_ b) (initialized_ b) (mutex_ b).

Definition reset_stats (b : t) : t := with_frames_dropped b 0.

(** The bytes a consumer reads through the pointer a [peek] returned,
    in the buffer state [b]. *)
Definition peeked_bytes (b : t) (p : Peeked) : list byte :=
  take (Z.to_nat (pk_size p)) (slot_data (slot_at (slots_ b) (pk_slot p))).

End Methods.
End FrameBuffer.

(** ** interfaces/i_camera.hpp and interfaces/i_clock.hpp

    The camera and the clock are the two injected collaborators. Both act on
    the outside world, whose state is the type [W]: reading the clock or
    capturing a frame returns a value and the world afterwards. *)

Module interfaces.

Record FrameView := mkFrameView {
  data : option (list byte);
  size : Z;
  width : Z;
  height : Z;
  timestamp_us : Z
}.

Definition valid (f : FrameView) : bool :=
  negb (FrameBuffer.is_null (data f)) && (size f >? 0).

Class IClock (W : Type) := {
  now_us : W → Z * W;
  delay_ms : Z → W → W
}.

Class ICamera (W : Type) := {
  capture_frame : W → FrameView * W;
  release_frame : W → W
}.

End interfaces.

(** ** streaming_service.hpp *)

Module StreamingService.

Record StreamingConfig := mkStreamingConfig {
  target_fps : Z;
  buffer_slots : Z;
  max_frame_size : Z;
  consumer_timeout_ms : Z
}.

(** [StreamingConfig{}]. *)
Definition default_config : StreamingConfig :=
  mkStreamingConfig 3 3 (100 * 1024) 1000.

Record StreamingStats := mkStreamingStats {
  frames_captured : Z;
  frames_sent : Z;
  frames_dropped : Z;
  capture_errors : Z;
  producer_running : bool
}.

Record t := mk {
  buffer_ : FrameBuffer.t;
  config_ : StreamingConfig;
  stats_ : StreamingStats;
  frame_interval_us_ : Z;
  stop_requested_ : bool;
  initialized_ : bool;
  frame_ready_ : bool
}.

(** The service right after its constructor. *)
Definition constructed : t :=
  mk FrameBuffer.empty_buffer default_config
     (mkStreamingStats 0 0 0 0 false) 333333 false false false.

Definition with_buffer (s : t) (b : FrameBuffer.t) : t :=
  mk b (config_ s) (stats_ s) (frame_interval_us_ s) (stop_requested_ s)
     (initialized_ s) (frame_ready_ s).
Definition with_stats (s : t) (st : StreamingStats) : t :=
  mk (buffer_ s) (config_ s) st (frame_interval_us_ s) (stop_requested_ s)
     (initialized_ s) (frame_ready_ s).

(** The outcome of a method that divides: [Undefined] when the divisor is
    zero, which C++ leaves undefined (the ESP32 raises an
    integer-divide-by-zero exception). *)
Inductive outcome (A : Type) :=
| Undefined
| Returns (a : A).
Arguments Undefined {A}.
Arguments Returns {A} a.

Section Methods.
Context {B : Build}.

Definition init (s : t) (config : StreamingConfig) (h : Heap) : outcome (t * bool) :=
  if initialized_ s then Returns (s, true)
  else if target_fps config =? 0 then Undefined
  else
    let interval := 1000000 ÷ target_fps config in
    let '(buf, ok) :=
      FrameBuffer.init (buffer_ s) (buffer_slots config) (max_frame_size config)
        true h in
    let s1 := mk buf config (stats_ s) interval (stop_requested_ s)
                (initialized_ s) (frame_ready_ s) in
    if negb ok then Returns (s1, false)
    else if ESP_PLATFORM && negb (xSemaphoreCreateBinary h) then
      Returns (with_buffer s1 (FrameBuffer.deinit buf), false)
    else
      Returns (mk buf config (stats_ s) interval (stop_requested_ s) true
                 (if ESP_PLATFORM then true else frame_ready_ s), true).

(** [get_frame(data, size, 0)] in the host build: the non-blocking try. *)
Definition get_frame_nowait (s : t) (data size : bool)
    : t * option FrameBuffer.Peeked :=
  if negb (initialized_ s) || negb data || negb size then (s, None)
  else if FrameBuffer.empty (buffer_ s) then (s, None)
  else
    let '(buf, r) := FrameBuffer.peek (buffer_ s) data size false in
    (with_buffer s buf, r).

Definition release_frame (s : t) : t :=
  let buf := FrameBuffer.pop (buffer_ s) in
  let st := stats_ s in
  mk buf (config_ s)
     (mkStreamingStats (frames_captured st) (uint32_t (frames_sent st + 1))
        (frames_dropped st) (capture_errors st) (producer_running st))
     (frame_interval_us_ s) (stop_requested_ s) (initialized_ s) (frame_ready_ s).

Definition set_target_fps (s : t) (fps : Z) : t :=
  if (fps >? 0) && (fps <=? 30) then
    let c := config_ s in
    mk (buffer_ s)
       (mkStreamingConfig fps (buffer_slots c) (max_frame_size c)
          (consumer_timeout_ms c))
       (stats_ s) (1000000 ÷ fps) (stop_requested_ s) (initialized_ s)
       (frame_ready_ s)
  else s.

Definition get_target_fps (s : t) : Z := target_fps (config_ s).

Definition buffered_frames (s : t) : Z := FrameBuffer.available (buffer_ s).
Definition is_running (s : t) : bool := producer_running (stats_ s).
Definition is_initialized (s : t) : bool := initialized_ s.

(** [StreamingStats::reset()]: the four counters, not [producer_running]. *)
Definition reset (st : StreamingStats) : StreamingStats :=
  mkStreamingStats 0 0 0 0 (producer_running st).

(** [start()], up to and including the creation of the producer;
    [task_created] tells whether [xTaskCreatePinnedToCore] returns [pdPASS]
    (the host's [std::thread] has no failure return). The producer it creates
    then runs [producer_loop] on the service returned here. *)
Definition start (s : t) (task_created : bool) : t * bool :=
  if negb (initialized_ s) then (s, false)
  else if producer_running (stats_ s) then (s, true)
  else
    let s1 := mk (FrameBuffer.reset_stats (FrameBuffer.clear (buffer_ s)))
                (config_ s) (reset (stats_ s)) (frame_interval_us_ s) false
                (initialized_ s) (frame_ready_ s) in
    if ESP_PLATFORM && negb task_created then (s1, false) else (s1, true).

(** What [stop()] itself writes: it raises [stop_requested_], waits for the
    producer (joins the thread, or deletes the task after one second) and
    leaves [producer_running] false. The passes the producer still makes while
    [stop()] waits are the producer's, not part of this step. *)
Definition stop (s : t) : t :=
  let st := stats_ s in
  mk (buffer_ s) (config_ s)
     (mkStreamingStats (frames_captured st) (frames_sent st) (frames_dropped st)
        (capture_errors st) false)
     (frame_interval_us_ s) true (initialized_ s) (frame_ready_ s).

Definition deinit (s : t) : t :=
  if negb (initialized_ s) then s
  else
    let s1 := stop s in
    mk (FrameBuffer.deinit (buffer_ s1)) (config_ s1) (stats_ s1)
       (frame_interval_us_ s1) (stop_requested_ s1) false
       (if ESP_PLATFORM then false else frame_ready_ s1).

Section Producer.
Context {W : Type} {clock_ : interfaces.IClock W} {camera_ : interfaces.ICamera W}.

(** The result of one pass through the body of the [while] loop of
    [producer_loop]: the service, the world, [next_capture_time], and
    the last value assigned to the local [now]. Waking the consumers
    ([xSemaphoreGive], [notify_one]) and logging change none of these. *)
Record Pass := mkPass {
  pass_service : t;
  pass_world : W;
  pass_next_capture_time : Z;
  pass_now : Z
}.

Definition producer_iteration (s : t) (w : W) (next_capture_time : Z) : Pass :=
  let '(now, w) := interfaces.now_us w in
  if now <? next_capture_time then
    let sleep_ms := int64_t (next_capture_time - now) ÷ 1000 in
    let w := if sleep_ms >? 0 then interfaces.delay_ms (uint32_t sleep_ms) w else w in
    mkPass s w next_capture_time now
  else
    let '(frame, w) := interfaces.capture_frame w in
    let '(s, w) :=
      if interfaces.valid frame then
        let '(buf, pushed) :=
          FrameBuffer.push (buffer_ s) (interfaces.data frame)
            (interfaces.size frame) (interfaces.timestamp_us frame) in
        let w := interfaces.release_frame w in
        let s := with_buffer s buf in
        if pushed then
          let st := stats_ s in
          let captured := uint32_t (frames_captured st + 1) in
          let buf_drops := FrameBuffer.frames_dropped buf in
          let dropped :=
            if buf_drops >? frames_dropped st then buf_drops
            else frames_dropped st in
          (with_stats s
             (mkStreamingStats captured (frames_sent st) dropped
                (capture_errors st) (producer_running st)), w)
        else (s, w)
      else
        let st := stats_ s in
        (with_stats s
           (mkStreamingStats (frames_captured st) (frames_sent st)
              (frames_dropped st) (uint32_t (capture_errors st + 1))
              (producer_running st)),
         interfaces.release_frame w) in
    let next_capture_time := int64_t (next_capture_time + frame_interval_us_ s) in
    let '(now, w) := interfaces.now_us w in
    let next_capture_time :=
      if next_capture_time <? now then int64_t (now + frame_interval_us_ s)
      else next_capture_time in
    mkPass s w next_capture_time now.

(** [passes] passes through the loop body, i.e. the loop as long as
    it reads [stop_requested_] as false. *)
Fixpoint producer_passes (passes : nat) (s : t) (w : W) (next_capture_time now : Z)
    : Pass :=
  match passes with
  | O => mkPass s w next_capture_time now
  | S n =>
      let p := producer_iteration s w next_capture_time in
      producer_passes n (pass_service p) (pass_world p)
        (pass_next_capture_time p) (pass_now p)
  end.

(** [producer_loop] when the stop request is seen after [passes] passes. *)
Definition producer_loop (passes : nat) (s : t) (w : W) : Pass :=
  let running (r : bool) (s : t) :=
    let st := stats_ s in
    with_stats s (mkStreamingStats (frames_captured st) (frames_sent st)
                    (frames_dropped st) (capture_errors st) r) in
  let '(next_capture_time, w) := interfaces.now_us w in
  let p := producer_passes passes (running true s) w next_capture_time
             next_capture_time in
  mkPass (running false (pass_service p)) (pass_world p)
    (pass_next_capture_time p) (pass_now p).

End Producer.
End Methods.
End StreamingService.

(** ** The ring buffer as the design document describes it

    The document (section 4.1) describes the buffer as a bounded queue of
    frames with a drop-oldest policy and a reader-immunity rule. [Queue] is
    that description, written independently of the code: the frames are a
    list, oldest first; each accepted [push] is numbered, and a frame carries
    the number of the [push] that brought it. *)

Module Queue.

Record Frame := mkFrame {
  payload : list byte;
  frame_size : Z;
  frame_timestamp_us : Z
}.

Record t := mk {
  frames : list (nat * Frame);
  held : bool;
  pushes : nat;
  dropped : Z
}.

Definition fresh : t := mk [] false 0 0.

Inductive result :=
| Pushed (ok : bool)
| Peeked (r : option (list byte * Z * option Z))
| Done.

Section Operations.
Variables (slots max_frame_size : Z).

Definition push (q : t) (data : option (list byte)) (size timestamp_us : Z)
    : t * bool :=
  match data with
  | None => (q, false)
  | Some src =>
      if (size =? 0) || (size >? max_frame_size) then (q, false)
      else
        let f := (pushes q, mkFrame (take (Z.to_nat size) src) size timestamp_us) in
        if Z.of_nat (length (frames q)) <? slots then
          (mk (frames q ++ [f]) (held q) (S (pushes q)) (dropped q), true)
        else if held q then
          (mk (frames q) (held q) (S (pushes q)) (dropped q + 1), true)
        else
          (mk (tail (frames q) ++ [f]) (held q) (S (pushes q)) (dropped q + 1), true)
  end.

Definition peek (q : t) (data size timestamp_us : bool)
    : t * option (list byte * Z * option Z) :=
  if negb data || negb size then (q, None)
  else
    match frames q with
    | [] => (q, None)
    | (_, f) :: _ =>
        (mk (frames q) true (pushes q) (dropped q),
         Some (payload f, frame_size f,
               if timestamp_us then Some (frame_timestamp_us f) else None))
    end.

Definition pop (q : t) : t :=
  match frames q with
  | [] => q
  | _ :: rest => mk rest false (pushes q) (dropped q)
  end.

Definition clear (q : t) : t := mk [] false (pushes q) (dropped q).

End Operations.

(** The frames are in the order of their pushes, and every number is one
    already given out. *)
Definition ordered (q : t) : Prop :=
  (∀ i j a b, (i < j)%nat → (frames q).*1 !! i = Some a →
              (frames q).*1 !! j = Some b → (a < b)%nat)
  ∧ (∀ i a, (frames q).*1 !! i = Some a → (a < pushes q)%nat).

End Queue.

(** ** Sequences of operations on a buffer *)

Inductive op :=
| Push (data : option (list byte)) (size timestamp_us : Z)
| Peek (data size timestamp_us : bool)
| Pop
| Clear.

Inductive result :=
| Pushed (ok : bool)
| PeekedAt (r : option FrameBuffer.Peeked)
| Done.

(** The arguments of a [push] are well formed when at least [size] bytes are
    readable at a non-null [data], as [memcpy] requires. *)
Definition well_formed (o : op) : Prop :=
  match o with
  | Push (Some src) size _ => 0 ≤ size ≤ Z.of_nat (length src)
  | _ => True
  end.

(** A push the buffer accepts. *)
Definition valid_push (max_frame_size : Z) (o : op) : Prop :=
  match o with
  | Push (Some src) size _ => 0 < size ≤ max_frame_size ∧ size ≤ Z.of_nat (length src)
  | _ => False
  end.

(** The frame a push carries. *)
Definition frame_of (o : op) : option Queue.Frame :=
  match o with
  | Push (Some src) size timestamp_us =>
      Some (Queue.mkFrame (take (Z.to_nat size) src) size timestamp_us)
  | _ => None
  end.

Definition queue_exec (slots max_frame_size : Z) (o : op) (q : Queue.t)
    : Queue.t * Queue.result :=
  match o with
  | Push data size timestamp_us =>
      let '(q', ok) := Queue.push slots max_frame_size q data size timestamp_us in
      (q', Queue.Pushed ok)
  | Peek data size timestamp_us =>
      let '(q', r) := Queue.peek q data size timestamp_us in (q', Queue.Peeked r)
  | Pop => (Queue.pop q, Queue.Done)
  | Clear => (Queue.clear q, Queue.Done)
  end.

Section Driver.
Context {B : Build}.

Definition exec (o : op) (b : FrameBuffer.t) : FrameBuffer.t * result :=
  match o with
  | Push data size timestamp_us =>
      let '(b', ok) := FrameBuffer.push b data size timestamp_us in (b', Pushed ok)
  | Peek data size timestamp_us =>
      let '(b', r) := FrameBuffer.peek b data size timestamp_us in (b', PeekedAt r)
  | Pop => (FrameBuffer.pop b, Done)
  | Clear => (FrameBuffer.clear b, Done)
  end.

(** What the caller of an operation sees: the return value and, for a
    [peek], the bytes behind the returned pointer, the size and the
    timestamp. *)
Definition view (br : FrameBuffer.t * result) : Queue.result :=
  match br.2 with
  | Pushed ok => Queue.Pushed ok
  | PeekedAt r =>
      Queue.Peeked
        ((λ p, (FrameBuffer.peeked_bytes br.1 p, FrameBuffer.pk_size p,
                FrameBuffer.pk_timestamp_us p)) <$> r)
  | Done => Queue.Done
  end.

(** The status queries. *)
Definition status (b : FrameBuffer.t) : Z * bool * bool * Z * Z :=
  (FrameBuffer.available b, FrameBuffer.empty b, FrameBuffer.full b,
   FrameBuffer.capacity b, FrameBuffer.max_frame_size b).

(** Runs the operations in order; returns the final buffer and, for each
    operation, what its caller sees and the status queries after it. *)
Fixpoint run (ops : list op) (b : FrameBuffer.t)
    : FrameBuffer.t * list (Queue.result * (Z * bool * bool * Z * Z)) :=
  match ops with
  | [] => (b, [])
  | o :: rest =>
      let br := exec o b in
      let '(b', log) := run rest br.1 in
      (b', (view br, status br.1) :: log)
  end.

(** [n] times [peek] then [pop], as a consumer does. *)
Definition drain (n : nat) : list op := mjoin (replicate n [Peek true true true; Pop]).

(** The states a buffer goes through: after a successful [init], then
    after any operation or [reset_stats]. *)
Inductive reachable : FrameBuffer.t → Prop :=
| reach_init b num_slots max_frame_size use_psram h :
    FrameBuffer.init FrameBuffer.empty_buffer num_slots max_frame_size use_psram h
      = (b, true) →
    0 < num_slots < 2 ^ SIZE_BITS →
    0 < max_frame_size < 2 ^ SIZE_BITS →
    reachable b
| reach_exec b o :
    reachable b → well_formed o → reachable (exec o b).1
| reach_reset_stats b :
    reachable b → reachable (FrameBuffer.reset_stats b).

Definition ring_index (b : FrameBuffer.t) (k : Z) : nat :=
  Z.to_nat ((FrameBuffer.read_idx_ b + k) `mod` FrameBuffer.num_slots_ b).

(** Slot [s] stores frame [f]. *)
Definition stores (s : FrameBuffer.FrameSlot) (f : Queue.Frame) : Prop :=
  FrameBuffer.slot_occupied s = true
  ∧ FrameBuffer.slot_size s = Queue.frame_size f
  ∧ FrameBuffer.slot_timestamp_us s = Queue.frame_timestamp_us f
  ∧ take (Z.to_nat (FrameBuffer.slot_size s)) (FrameBuffer.slot_data s)
    = Queue.payload f.

(** The buffer [b] represents the queue [q]. *)
Record Refines (b : FrameBuffer.t) (q : Queue.t) : Prop := {
  ref_initialized : FrameBuffer.initialized_ b = true;
  ref_slots : 0 < FrameBuffer.num_slots_ b < 2 ^ SIZE_BITS;
  ref_max : 0 < FrameBuffer.max_frame_size_ b;
  ref_length : Z.of_nat (length (FrameBuffer.slots_ b)) = FrameBuffer.num_slots_ b;
  ref_regions : ∀ i s, FrameBuffer.slots_ b !! i = Some s →
    Z.of_nat (length (FrameBuffer.slot_data s)) = FrameBuffer.max_frame_size_ b
    ∧ FrameBuffer.slot_capacity s = FrameBuffer.max_frame_size_ b;
  ref_read : 0 ≤ FrameBuffer.read_idx_ b < FrameBuffer.num_slots_ b;
  ref_count : FrameBuffer.count_ b = Z.of_nat (length (Queue.frames q));
  ref_bounded : FrameBuffer.count_ b ≤ FrameBuffer.num_slots_ b;
  ref_write : FrameBuffer.write_idx_ b
              = (FrameBuffer.read_idx_ b + FrameBuffer.count_ b)
                  `mod` FrameBuffer.num_slots_ b;
  ref_dropped : 0 ≤ Queue.dropped q
                ∧ FrameBuffer.frames_dropped_ b = uint32_t (Queue.dropped q);
  ref_held : Queue.held q = true → Queue.frames q ≠ [];
  ref_window : ∀ k nf, Queue.frames q !! k = Some nf →
    ∃ s, FrameBuffer.slots_ b !! ring_index b (Z.of_nat k) = Some s
         ∧ stores s nf.2
         ∧ FrameBuffer.slot_reading s = bool_decide (k = 0%nat) && Queue.held q;
  ref_free : ∀ k, FrameBuffer.count_ b ≤ k < FrameBuffer.num_slots_ b →
    ∃ s, FrameBuffer.slots_ b !! ring_index b k = Some s
         ∧ FrameBuffer.slot_occupied s = false
         ∧ FrameBuffer.slot_reading s = false
}.

End Driver.

(** The queue counterparts of [status] and [run]. *)
Definition queue_status (slots max_frame_size : Z) (q : Queue.t)
    : Z * bool * bool * Z * Z :=
  let n := Z.of_nat (length (Queue.frames q)) in
  (n, n =? 0, n >=? slots, slots, max_frame_size).

Fixpoint queue_run (slots max_frame_size : Z) (ops : list op) (q : Queue.t)
    : Queue.t * list (Queue.result * (Z * bool * bool * Z * Z)) :=
  match ops with
  | [] => (q, [])
  | o :: rest =>
      let qr := queue_exec slots max_frame_size o q in
      let '(q', log) := queue_run slots max_frame_size rest qr.1 in
      (q', (qr.2, queue_status slots max_frame_size qr.1) :: log)
  end.

(** What the consumer gets for the frame of a push: the [peek] that returns
    it, then the [pop]. *)
Definition delivered (o : op) : list Queue.result :=
  match frame_of o with
  | Some f =>
      [Queue.Peeked (Some (Queue.payload f, Queue.frame_size f,
                           Some (Queue.frame_timestamp_us f)));
       Queue.Done]
  | None => []
  end.

(** ** Concrete builds and inputs, as the unit tests use them *)

Definition esp32 : Build := {| SIZE_BITS := 32; ESP_PLATFORM := true |}.
Definition host64 : Build := {| SIZE_BITS := 64; ESP_PLATFORM := false |}.

(** A heap on which every allocation succeeds. *)
Definition plentiful : Heap := mkHeap true (λ _ _, Some (λ _, x00)) true true.

(** [make_test_frame(size, fill)] of test_frame_buffer.cpp. *)
Definition make_test_frame (size : nat) (fill : byte) : list byte :=
  let data := replicate size fill in
  if (4 <=? size)%nat then
    <[(size - 1)%nat := xd9]> (<[(size - 2)%nat := xff]> (<[1%nat := xd8]> (<[0%nat := xff]> data)))
  else data.

Definition push_test_frame (size : nat) (fill : byte) (timestamp_us : Z) : op :=
  Push (Some (make_test_frame size fill)) (Z.of_nat size) timestamp_us.

(** One more push than a 32-bit counter can count, on a one-slot buffer. *)
Definition wrapping_pushes : list op :=
  replicate (Z.to_nat (2 ^ 32 + 1)) (push_test_frame 1 xaa 0).

(** The invariants of section 3 of the design document, for a buffer [b]
    whose frames are, in push order and numbered by their pushes, those of
    [q]: the bounds on [count_]; [count_] is zero exactly when the buffer is
    empty, that is when no slot is occupied; the occupied slots are the ones
    that store the frames of [q]; the slot at [read_idx_] stores the oldest of
    them, the one whose push has the least number; a slot marked as being read
    is the (occupied) slot at [read_idx_], so no two slots are marked. *)
Definition ring_invariant (b : FrameBuffer.t) (q : Queue.t) : Prop :=
  0 ≤ FrameBuffer.count_ b ≤ FrameBuffer.num_slots_ b
  ∧ (FrameBuffer.count_ b = 0 ↔ FrameBuffer.empty b = true)
  ∧ (FrameBuffer.count_ b = 0 ↔
     ∀ i s, FrameBuffer.slots_ b !! i = Some s → FrameBuffer.slot_occupied s = false)
  ∧ (∀ i s, FrameBuffer.slots_ b !! i = Some s → FrameBuffer.slot_occupied s = true →
       ∃ k nf, Queue.frames q !! k = Some nf ∧ i = ring_index b (Z.of_nat k)
               ∧ stores s nf.2)
  ∧ (∀ n f, head (Queue.frames q) = Some (n, f) →
       stores (FrameBuffer.slot_at (FrameBuffer.slots_ b) (FrameBuffer.read_idx_ b)) f
       ∧ ∀ nf, nf ∈ Queue.frames q → (n ≤ nf.1)%nat)
  ∧ (∀ i s, FrameBuffer.slots_ b !! i = Some s → FrameBuffer.slot_reading s = true →
       i = Z.to_nat (FrameBuffer.read_idx_ b) ∧ FrameBuffer.slot_occupied s = true)
  ∧ (∀ i j si sj,
       FrameBuffer.slots_ b !! i = Some si → FrameBuffer.slots_ b !! j = Some sj →
       FrameBuffer.slot_reading si = true → FrameBuffer.slot_reading sj = true →
       i = j).

(** The frames of a queue without their push numbers. *)
Definition untagged (q : Queue.t) : list Queue.Frame := (Queue.frames q).*2.

(** Two queues a caller cannot tell apart: the same frames in the same
    order, and the same outstanding peek. *)
Definition similar (q1 q2 : Queue.t) : Prop :=
  untagged q1 = untagged q2 ∧ Queue.held q1 = Queue.held q2.

(** The values an [int64_t] holds; signed arithmetic outside it is undefined
    in C++ (the model wraps). *)
Definition int64_range (x : Z) : Prop := - 2 ^ 63 ≤ x < 2 ^ 63.

(** ** test/mocks: the controllable clock and camera of the unit tests

    One world holds both mocks. [capture_delay_us] stands for a capture-delay
    callback that advances the mock clock by that much. *)

Module mocks.

Record World := mkWorld {
  current_time_us_ : Z;
  auto_advance_us_ : Z;
  initialized_ : bool;
  should_capture_succeed_ : bool;
  frame_counter_ : Z;
  custom_frame_data_ : list byte;
  capture_delay_us : Z
}.

Definition with_time (w : World) (t : Z) : World :=
  mkWorld t (auto_advance_us_ w) (initialized_ w) (should_capture_succeed_ w)
    (frame_counter_ w) (custom_frame_data_ w) (capture_delay_us w).

(** The frame the constructor of [MockCamera] prepares. *)
Definition default_frame_ : list byte := make_test_frame 1024 x00.

#[export] Instance MockClock : interfaces.IClock World := {|
  interfaces.now_us w :=
    (current_time_us_ w,
     if auto_advance_us_ w >? 0
     then with_time w (int64_t (current_time_us_ w + auto_advance_us_ w))
     else w);
  interfaces.delay_ms ms w :=
    with_time w (int64_t (current_time_us_ w + int64_t (ms * 1000)))
|}.

#[export] Instance MockCamera : interfaces.ICamera World := {|
  interfaces.capture_frame w :=
    if negb (initialized_ w) || negb (should_capture_succeed_ w) then
      (interfaces.mkFrameView None 0 0 0 0, w)
    else
      let counter := uint32_t (frame_counter_ w + 1) in
      let bytes :=
        match custom_frame_data_ w with
        | [] => default_frame_
        | _ => custom_frame_data_ w
        end in
      (interfaces.mkFrameView (Some bytes) (Z.of_nat (length bytes)) 640 480
         (uint32_t (counter * 33333)),
       mkWorld (int64_t (current_time_us_ w + capture_delay_us w))
         (auto_advance_us_ w) (initialized_ w) (should_capture_succeed_ w)
         counter (custom_frame_data_ w) (capture_delay_us w));
  interfaces.release_frame w := w
|}.

End mocks.

(** The service after a successful [init] with [config], or as constructed
    when [init] does not return [true]. *)
Definition initialized_service {B : Build} (config : StreamingService.StreamingConfig)
    (h : Heap) : StreamingService.t :=
  match StreamingService.init StreamingService.constructed config h with
  | StreamingService.Returns (s, true) => s
  | _ => StreamingService.constructed
  end.

(** ** What is waiting in a buffer

    [pending b] is what a consumer would get from [b] by peeking and popping
    until nothing is available: for each frame its bytes, its size and its
    timestamp, oldest first. *)

Definition seen (r : Queue.result) : option (list byte * Z * option Z) :=
  match r with
  | Queue.Peeked x => x
  | _ => None
  end.

Definition pending {B : Build} (b : FrameBuffer.t) : list (list byte * Z * option Z) :=
  omap seen (run (drain (Z.to_nat (FrameBuffer.available b))) b).2.*1.

(** What a consumer gets for the frame that a valid push brings. *)
Definition pushed_frame (src : list byte) (size timestamp_us : Z)
    : list byte * Z * option Z :=
  (take (Z.to_nat size) src, size, Some timestamp_us).

(** What a consumer gets for a frame of the queue. *)
Definition frame_view (f : Queue.Frame) : list byte * Z * option Z :=
  (Queue.payload f, Queue.frame_size f, Some (Queue.frame_timestamp_us f)).

(** ** drivers/esp_camera_driver.hpp

    The driver sits on the esp32-camera library. Of the library the model
    keeps what the driver's calls change: [installed] is true between
    [esp_camera_init] and [esp_camera_deinit], and [lent] counts the frame
    buffers obtained with [esp_camera_fb_get] and not yet given back with
    [esp_camera_fb_return]. What the library answers is an argument of the
    method that asks. *)

Module EspCameraDriver.

Record CameraConfig := mkCameraConfig {
  resolution : Z;
  jpeg_quality : Z;
  frame_buffer_count : Z
}.

(** [CameraConfig{}]: VGA, quality 20, two frame buffers. *)
Definition default_camera_config : CameraConfig := mkCameraConfig 2 20 2.

Record camera_fb_t := mk_fb {
  buf : option (list byte);
  len : Z;
  fb_width : Z;
  fb_height : Z;
  tv_sec : Z;
  tv_usec : Z
}.

Record Library := mkLibrary {
  installed : bool;
  lent : Z
}.

Record t := mk {
  config_ : CameraConfig;
  current_fb_ : option camera_fb_t;
  initialized_ : bool
}.

Definition constructed : t := mk default_camera_config None false.

(** The part every method shares: give the current frame buffer back. *)
Definition return_current (d : t) (l : Library) : t * Library :=
  match current_fb_ d with
  | Some _ => (mk (config_ d) None (initialized_ d),
               mkLibrary (installed l) (lent l - 1))
  | None => (d, l)
  end.

(** [init(config)]; [esp_ok] tells whether [esp_camera_init] returns
    [ESP_OK]. *)
Definition init (d : t) (l : Library) (config : CameraConfig) (esp_ok : bool)
    : t * Library * bool :=
  if initialized_ d then (d, l, true)
  else
    let d1 := mk config (current_fb_ d) (initialized_ d) in
    if negb esp_ok then (d1, l, false)
    else (mk config (current_fb_ d) true, mkLibrary true (lent l), true).

Definition deinit (d : t) (l : Library) : t * Library :=
  if initialized_ d then
    let '(d1, l1) := return_current d l in
    (mk (config_ d1) (current_fb_ d1) false, mkLibrary false (lent l1))
  else (d, l).

(** [capture_frame()]; [got] is what [esp_camera_fb_get] returns when it
    is called. *)
Definition capture_frame (d : t) (l : Library) (got : option camera_fb_t)
    : t * Library * interfaces.FrameView :=
  if negb (initialized_ d) then (d, l, interfaces.mkFrameView None 0 0 0 0)
  else
    let '(d1, l1) := return_current d l in
    match got with
    | None => (mk (config_ d1) None (initialized_ d1), l1,
               interfaces.mkFrameView None 0 0 0 0)
    | Some fb =>
        (mk (config_ d1) (Some fb) (initialized_ d1),
         mkLibrary (installed l1) (lent l1 + 1),
         interfaces.mkFrameView (buf fb) (len fb) (fb_width fb) (fb_height fb)
           (int64_t (int64_t (tv_sec fb * 1000000) + tv_usec fb)))
    end.

Definition release_frame (d : t) (l : Library) : t * Library := return_current d l.

(** [set_quality(quality)]; [sensor] is [None] when [esp_camera_sensor_get]
    returns null, otherwise what the sensor's [set_quality] returns. *)
Definition set_quality (d : t) (quality : Z) (sensor : option Z) : t * bool :=
  if negb (initialized_ d) || (quality <? 10) || (quality >? 63) then (d, false)
  else
    match sensor with
    | None => (d, false)
    | Some status =>
        if negb (status =? 0) then (d, false)
        else (mk (mkCameraConfig (resolution (config_ d)) quality
                    (frame_buffer_count (config_ d)))
                (current_fb_ d) (initialized_ d), true)
    end.

Definition set_resolution (d : t) (res : Z) (sensor : option Z) : t * bool :=
  if negb (initialized_ d) then (d, false)
  else
    match sensor with
    | None => (d, false)
    | Some status =>
        if negb (status =? 0) then (d, false)
        else (mk (mkCameraConfig res (jpeg_quality (config_ d))
                    (frame_buffer_count (config_ d)))
                (current_fb_ d) (initialized_ d), true)
    end.

Definition get_resolution (d : t) : Z := resolution (config_ d).
Definition get_quality (d : t) : Z := jpeg_quality (config_ d).

(** The calls a user of the driver makes, each with what the library
    answers. *)
Inductive call :=
| Init (config : CameraConfig) (esp_ok : bool)
| Deinit
| CaptureFrame (got : option camera_fb_t)
| ReleaseFrame
| SetQuality (quality : Z) (sensor : option Z)
| SetResolution (res : Z) (sensor : option Z).

Definition step (c : call) (dl : t * Library) : t * Library :=
  let '(d, l) := dl in
  match c with
  | Init config esp_ok => (init d l config esp_ok).1
  | Deinit => deinit d l
  | CaptureFrame got => (capture_frame d l got).1
  | ReleaseFrame => release_frame d l
  | SetQuality quality sensor => ((set_quality d quality sensor).1, l)
  | SetResolution res sensor => ((set_resolution d res sensor).1, l)
  end.

Definition steps (cs : list call) (dl : t * Library) : t * Library :=
  foldl (λ acc c, step c acc) dl cs.

(** A call that does not hand [init] a quality outside the range that
    [set_quality] accepts. *)
Definition init_quality_ok (c : call) : Prop :=
  match c with
  | Init config _ => 10 ≤ jpeg_quality config ≤ 63
  | _ => True
  end.

End EspCameraDriver.

(** ** core/wifi_manager.hpp: the event handler

    The identifiers of the three events and the masks [BIT0] and [BIT1] are
    constants of ESP-IDF; the handler only compares with the former and sets
    the latter. [connects] counts the calls of [esp_wifi_connect]; the event
    group is the bit set [xEventGroupSetBits] adds to. *)

Module WiFiManager.

Class EspIdf := {
  WIFI_EVENT_STA_START : Z;
  WIFI_EVENT_STA_DISCONNECTED : Z;
  IP_EVENT_STA_GOT_IP : Z;
  BIT0 : Z;
  BIT1 : Z;
  sta_events_differ : WIFI_EVENT_STA_START ≠ WIFI_EVENT_STA_DISCONNECTED
}.

Inductive event_base := WIFI_EVENT | IP_EVENT | OTHER_EVENT.

Definition CONNECTED_BIT `{EspIdf} : Z := BIT0.
Definition FAIL_BIT `{EspIdf} : Z := BIT1.

Record t := mk {
  retry_count_ : Z;
  event_group_ : Z;
  connects : Z
}.

Definition constructed : t := mk 0 0 0.

Definition wifi_event_handler `{EspIdf} (self : t) (base : event_base) (id : Z) : t :=
  match base with
  | WIFI_EVENT =>
      if id =? WIFI_EVENT_STA_START then
        mk (retry_count_ self) (event_group_ self) (connects self + 1)
      else if id =? WIFI_EVENT_STA_DISCONNECTED then
        if retry_count_ self <? 5 then
          mk (wrap_signed 32 (retry_count_ self + 1)) (event_group_ self)
             (connects self + 1)
        else
          mk (retry_count_ self) (Z.lor (event_group_ self) FAIL_BIT) (connects self)
      else self
  | IP_EVENT =>
      if id =? IP_EVENT_STA_GOT_IP then
        mk 0 (Z.lor (event_group_ self) CONNECTED_BIT) (connects self)
      else self
  | OTHER_EVENT => self
  end.

Definition handle_all `{EspIdf} (events : list (event_base * Z)) (self : t) : t :=
  foldl (λ acc e, wifi_event_handler acc e.1 e.2) self events.

(** How many of the events are the station start, and how many the
    obtained address. *)
Definition is_start `{EspIdf} (e : event_base * Z) : bool :=
  match e.1 with WIFI_EVENT => e.2 =? WIFI_EVENT_STA_START | _ => false end.

Definition is_got_ip `{EspIdf} (e : event_base * Z) : bool :=
  match e.1 with IP_EVENT => e.2 =? IP_EVENT_STA_GOT_IP | _ => false end.

Definition how_many (f : event_base * Z → bool) (events : list (event_base * Z)) : Z :=
  Z.of_nat (length (filter (λ e, f e = true) events)).

(** The values of ESP-IDF v5: [WIFI_EVENT_STA_START = 2],
    [WIFI_EVENT_STA_DISCONNECTED = 5], [IP_EVENT_STA_GOT_IP = 0]. *)
Definition esp_idf : EspIdf := {|
  WIFI_EVENT_STA_START := 2;
  WIFI_EVENT_STA_DISCONNECTED := 5;
  IP_EVENT_STA_GOT_IP := 0;
  BIT0 := 1;
  BIT1 := 2;
  sta_events_differ := ltac:(discriminate)
|}.

End WiFiManager.

(** The frames of a queue fit a buffer whose frames are at most
    [max_frame_size] bytes: each has a size in [1 .. max_frame_size] and that
    many bytes. *)
Definition sized (max_frame_size : Z) (q : Queue.t) : Prop :=
  Forall (λ nf : nat * Queue.Frame,
            0 < Queue.frame_size nf.2 ≤ max_frame_size
            ∧ Z.of_nat (length (Queue.payload nf.2)) = Queue.frame_size nf.2)
         (Queue.frames q).

(** What a pass of the producer leaves alone: it never lowers the drop
    counter of the service and does not touch the sent counter, the running
    flag, the configuration, the interval, the stop request and the geometry
    of the buffer. *)
Definition pass_keeps (s s' : StreamingService.t) : Prop :=
  StreamingService.frames_dropped (StreamingService.stats_ s)
    ≤ StreamingService.frames_dropped (StreamingService.stats_ s')
  ∧ StreamingService.frames_sent (StreamingService.stats_ s')
    = StreamingService.frames_sent (StreamingService.stats_ s)
  ∧ StreamingService.producer_running (StreamingService.stats_ s')
    = StreamingService.producer_running (StreamingService.stats_ s)
  ∧ StreamingService.config_ s' = StreamingService.config_ s
  ∧ StreamingService.frame_interval_us_ s' = StreamingService.frame_interval_us_ s
  ∧ StreamingService.initialized_ s' = StreamingService.initialized_ s
  ∧ StreamingService.stop_requested_ s' = StreamingService.stop_requested_ s
  ∧ FrameBuffer.capacity (StreamingService.buffer_ s')
    = FrameBuffer.capacity (StreamingService.buffer_ s)
  ∧ FrameBuffer.max_frame_size (StreamingService.buffer_ s')
    = FrameBuffer.max_frame_size (StreamingService.buffer_ s)
  ∧ FrameBuffer.is_initialized (StreamingService.buffer_ s')
    = FrameBuffer.is_initialized (StreamingService.buffer_ s).

(** * Properties *)

(** ** Arithmetic of the ring *)

Lemma wrap_small bits x : 0 ≤ x < 2 ^ bits → wrap bits x = x.
Proof. intros Hx. unfold wrap. apply Z.mod_small. lia. Qed.

Lemma uint32_succ d : uint32_t (uint32_t d + 1) = uint32_t (d + 1).
Proof. unfold uint32_t, wrap. apply Zplus_mod_idemp_l. Qed.

Lemma ring_cases N x :
  0 < N → 0 ≤ x < 2 * N →
  (x `mod` N = x ∧ x < N) ∨ (x `mod` N = x - N ∧ N ≤ x).
Proof.
  intros HN Hx. destruct (Z_lt_dec x N) as [Hlt|Hge].
  - left. split; [apply Z.mod_small|]; lia.
  - right. split; [|lia].
    replace x with ((x - N) + 1 * N) at 1 by lia.
    rewrite Z_mod_plus_full. apply Z.mod_small. lia.
Qed.

Ltac ring_split N x :=
  let E := fresh "E" in
  let Hc := fresh "Hc" in
  destruct (ring_cases N x) as [[E Hc]|[E Hc]]; [lia | lia | |];
  rewrite ?E in *.

Section RingFacts.
Context {B : Build}.
Import FrameBuffer.

Lemma slot_at_lookup l i s : l !! Z.to_nat i = Some s → slot_at l i = s.
Proof. unfold slot_at. by intros ->. Qed.

Lemma ring_index_inj b k k' :
  0 < num_slots_ b → 0 ≤ read_idx_ b < num_slots_ b →
  0 ≤ k < num_slots_ b → 0 ≤ k' < num_slots_ b →
  ring_index b k = ring_index b k' → k = k'.
Proof.
  unfold ring_index. intros HN Hr Hk Hk' Heq.
  apply Z2Nat.inj in Heq; try (apply Z.mod_pos_bound; lia).
  ring_split (num_slots_ b) (read_idx_ b + k);
    ring_split (num_slots_ b) (read_idx_ b + k'); lia.
Qed.

Lemma ring_index_0 b :
  0 < num_slots_ b → 0 ≤ read_idx_ b < num_slots_ b →
  ring_index b 0 = Z.to_nat (read_idx_ b).
Proof.
  intros HN Hr. unfold ring_index. rewrite Z.add_0_r, Z.mod_small; [done|lia].
Qed.

Lemma memcpy_take dst src n :
  0 ≤ n ≤ Z.of_nat (length src) →
  take (Z.to_nat n) (memcpy dst src n) = take (Z.to_nat n) src.
Proof.
  intros Hn. unfold memcpy. rewrite take_app_le, take_take.
  - f_equal. lia.
  - rewrite length_take. lia.
Qed.

Lemma memcpy_length dst src n :
  0 ≤ n ≤ Z.of_nat (length src) → n ≤ Z.of_nat (length dst) →
  length (memcpy dst src n) = length dst.
Proof.
  intros Hs Hd. unfold memcpy. rewrite length_app, length_take, length_drop. lia.
Qed.

End RingFacts.

(** ** The buffer represents the queue, operation by operation *)

Section Refinement.
Context {B : Build}.
Import FrameBuffer.

Lemma refines_size_t b q x :
  Refines b q → 0 ≤ x ≤ num_slots_ b → size_t x = x.
Proof.
  intros R Hx. apply wrap_small. pose proof (ref_slots _ _ R). lia.
Qed.

Lemma refines_read_slot b q nf rest :
  Refines b q → Queue.frames q = nf :: rest →
  ∃ s, slots_ b !! Z.to_nat (read_idx_ b) = Some s
       ∧ slot_at (slots_ b) (read_idx_ b) = s
       ∧ stores s nf.2 ∧ slot_reading s = Queue.held q.
Proof.
  intros R Hq.
  destruct (ref_window _ _ R 0%nat nf) as (s & Hs & Hst & Hrd).
  { by rewrite Hq. }
  rewrite ring_index_0 in Hs by apply R.
  exists s. split_and!; [done|by apply slot_at_lookup|done|].
  by rewrite Hrd.
Qed.

Lemma refines_pop b q : Refines b q → Refines (pop b) (Queue.pop q).
Proof.
  intros R. unfold pop, Queue.pop. rewrite (ref_initialized _ _ R). simpl.
  pose proof (ref_count _ _ R) as Hc.
  destruct (Queue.frames q) as [|nf rest] eqn:Hq.
  { simpl in Hc. rewrite Hc. simpl. done. }
  simpl in Hc.
  destruct (Z.gtb_spec (count_ b) 0) as [_|]; [|lia].
  destruct (refines_read_slot _ _ _ _ R Hq) as (s0 & Hs0 & Hat & Hst & Hrd).
  pose proof (ref_slots _ _ R) as HN. pose proof (ref_read _ _ R) as Hr.
  pose proof (ref_bounded _ _ R) as Hb. pose proof (ref_length _ _ R) as Hl.
  assert (Hr' : size_t (read_idx_ b + 1) `mod` num_slots_ b
                = (read_idx_ b + 1) `mod` num_slots_ b).
  { f_equal. eapply refines_size_t; [done|lia]. }
  assert (Hc' : size_t (count_ b - 1) = count_ b - 1).
  { eapply refines_size_t; [done|lia]. }
  unfold slot_update. rewrite Hat, Hr', Hc'.
  set (s1 := mkFrameSlot _ _ _ _ false false).
  assert (Hidx : ∀ k, 0 ≤ k < num_slots_ b →
    Z.to_nat (((read_idx_ b + 1) `mod` num_slots_ b + k) `mod` num_slots_ b)
    = ring_index b ((k + 1) `mod` num_slots_ b)).
  { intros k Hk. unfold ring_index. f_equal.
    rewrite Zplus_mod_idemp_l, Zplus_mod_idemp_r. f_equal. lia. }
  constructor; simpl.
  - done.
  - apply R.
  - apply R.
  - by rewrite length_insert.
  - intros i s Hi. apply list_lookup_insert_Some in Hi as [(_ & <- & _)|[_ Hi]].
    + unfold s1. simpl. by apply (ref_regions _ _ R _ _ Hs0).
    + by apply (ref_regions _ _ R _ _ Hi).
  - apply Z.mod_pos_bound. lia.
  - lia.
  - lia.
  - rewrite (ref_write _ _ R), Zplus_mod_idemp_l. f_equal. lia.
  - apply R.
  - done.
  - intros k nf' Hk.
    assert (Hlt : (k < length rest)%nat) by by eapply lookup_lt_Some.
    destruct (ref_window _ _ R (S k) nf') as (s & Hs & Hst' & Hrd').
    { by rewrite Hq. }
    exists s. unfold ring_index at 1. simpl.
    rewrite Hidx by lia.
    rewrite (Z.mod_small (Z.of_nat k + 1)) by lia.
    replace (Z.of_nat k + 1) with (Z.of_nat (S k)) by lia.
    split_and!; [|done|].
    + rewrite list_lookup_insert_ne; [done|].
      rewrite <- (ring_index_0 b) by lia.
      intros Heq. apply ring_index_inj in Heq; lia.
    + rewrite Hrd'. rewrite bool_decide_eq_false_2 by lia. by rewrite andb_false_r.
  - intros k Hk. unfold ring_index at 1. simpl. rewrite Hidx by lia.
    destruct (decide (k = num_slots_ b - 1)) as [->|Hne].
    + replace (num_slots_ b - 1 + 1) with (num_slots_ b) by lia.
      rewrite Z_mod_same_full, ring_index_0 by lia.
      exists s1. split; [|done]. apply list_lookup_insert_eq.
      by eapply lookup_lt_Some.
    + rewrite (Z.mod_small (k + 1)) by lia.
      destruct (ref_free _ _ R (k + 1)) as (s & Hs & Ho & Hrd'); [lia|].
      exists s. split; [|done].
      rewrite list_lookup_insert_ne; [done|].
      rewrite <- (ring_index_0 b) by lia.
      intros Heq. apply ring_index_inj in Heq; lia.
Qed.


Lemma geb_false x y : x < y → (x >=? y) = false.
Proof. intros. rewrite Z.geb_leb. apply Z.leb_gt. lia. Qed.

Lemma geb_true x y : y ≤ x → (x >=? y) = true.
Proof. intros. rewrite Z.geb_leb. apply Z.leb_le. lia. Qed.

Lemma gtb_false x y : x ≤ y → (x >? y) = false.
Proof. intros. rewrite Z.gtb_ltb. apply Z.ltb_ge. lia. Qed.

Lemma gtb_true x y : y < x → (x >? y) = true.
Proof. intros. rewrite Z.gtb_ltb. apply Z.ltb_lt. lia. Qed.

Lemma eqb_false x y : x ≠ y → (x =? y) = false.
Proof. intros. by apply Z.eqb_neq. Qed.

Lemma refines_push_room b q src size ts n m :
  Refines b q → count_ b < num_slots_ b →
  0 < size ≤ max_frame_size_ b → size ≤ Z.of_nat (length src) →
  (push b (Some src) size ts).2 = true
  ∧ Refines (push b (Some src) size ts).1
      (Queue.mk
         (Queue.frames q ++ [(n, Queue.mkFrame (take (Z.to_nat size) src) size ts)])
         (Queue.held q) m (Queue.dropped q)).
Proof.
  intros R Hroom Hsize Hsrc. unfold push.
  rewrite (ref_initialized _ _ R), eqb_false, gtb_false, geb_false by lia.
  simpl. split; [done|].
  pose proof (ref_slots _ _ R) as HN. pose proof (ref_read _ _ R) as Hr.
  pose proof (ref_length _ _ R) as Hl. pose proof (ref_count _ _ R) as Hc.
  pose proof (ref_write _ _ R) as Hw.
  destruct (ref_free _ _ R (count_ b)) as (s0 & Hs0 & Hocc & Hrd); [lia|].
  unfold ring_index in Hs0. rewrite <- Hw in Hs0.
  unfold slot_update. rewrite (slot_at_lookup _ _ _ Hs0).
  set (s1 := mkFrameSlot _ _ _ _ true false).
  assert (Hwlt : 0 ≤ write_idx_ b < num_slots_ b).
  { rewrite Hw. apply Z.mod_pos_bound. lia. }
  rewrite (refines_size_t b q (write_idx_ b + 1)) by (done || lia).
  rewrite (refines_size_t b q (count_ b + 1)) by (done || lia).
  assert (Hwk : Z.to_nat (write_idx_ b) = ring_index b (count_ b)).
  { unfold ring_index. by rewrite Hw. }
  constructor; simpl.
  - apply R.
  - apply R.
  - apply R.
  - by rewrite length_insert.
  - intros i s Hi. apply list_lookup_insert_Some in Hi as [(_ & <- & _)|[_ Hi]].
    + unfold s1. simpl. destruct (ref_regions _ _ R _ _ Hs0) as [Hlen Hcap].
      split; [|done]. rewrite memcpy_length; lia.
    + by apply (ref_regions _ _ R _ _ Hi).
  - done.
  - rewrite length_app. simpl. lia.
  - lia.
  - rewrite Hw, Zplus_mod_idemp_l. f_equal. lia.
  - apply R.
  - intros _. by destruct (Queue.frames q).
  - intros k nf Hk. unfold ring_index at 1. simpl. fold (ring_index b (Z.of_nat k)).
    apply lookup_app_Some in Hk as [Hk|[Hge Hk]].
    + destruct (ref_window _ _ R k nf Hk) as (s & Hs & Hst & Hrd').
      exists s. split; [|done].
      rewrite list_lookup_insert_ne; [done|]. rewrite Hwk.
      apply lookup_lt_Some in Hk.
      intros Heq. apply ring_index_inj in Heq; lia.
    + apply list_lookup_singleton_Some in Hk as [Hk <-].
      assert (k = length (Queue.frames q)) as -> by lia.
      rewrite <- Hc, <- Hwk. exists s1. split_and!.
      * apply list_lookup_insert_eq. by eapply lookup_lt_Some.
      * unfold stores, s1. simpl. split_and!; try done.
        apply memcpy_take. lia.
      * unfold s1. simpl. case_bool_decide as Hz; [|done].
        destruct (Queue.held q) eqn:Hh; [|done].
        apply (ref_held _ _ R) in Hh. by destruct (Queue.frames q).
  - intros k Hk. unfold ring_index at 1. simpl. fold (ring_index b k).
    destruct (ref_free _ _ R k) as (s & Hs & Ho & Hrd'); [lia|].
    exists s. split; [|done].
    rewrite list_lookup_insert_ne; [done|]. rewrite Hwk.
    intros Heq. apply ring_index_inj in Heq; lia.
Qed.


Lemma refines_peek b q d s t :
  Refines b q →
  Refines (peek b d s t).1 (Queue.peek q d s t).1
  ∧ (λ p, (peeked_bytes (peek b d s t).1 p, pk_size p, pk_timestamp_us p))
      <$> (peek b d s t).2 = (Queue.peek q d s t).2.
Proof.
  intros R. unfold peek, Queue.peek. rewrite (ref_initialized _ _ R).
  destruct d, s; simpl; try done.
  pose proof (ref_count _ _ R) as Hc.
  destruct (Queue.frames q) as [|[n f] rest] eqn:Hq.
  { simpl in Hc. rewrite Hc. done. }
  simpl in Hc. rewrite eqb_false by lia.
  destruct (refines_read_slot _ _ _ _ R Hq) as (s0 & Hs0 & Hat & Hst & Hrd).
  pose proof (ref_slots _ _ R) as HN. pose proof (ref_read _ _ R) as Hr.
  pose proof (ref_bounded _ _ R) as Hb.
  unfold slot_update. rewrite Hat.
  set (s1 := mkFrameSlot _ _ _ _ _ true).
  assert (Hs1 : <[Z.to_nat (read_idx_ b):=s1]> (slots_ b) !! Z.to_nat (read_idx_ b)
                = Some s1).
  { apply list_lookup_insert_eq. by eapply lookup_lt_Some. }
  rewrite (slot_at_lookup _ _ _ Hs1). simpl.
  destruct Hst as (Ho & Hsz & Hts & Hpay). simpl in *.
  split.
  - constructor; simpl.
    + apply R.
    + apply R.
    + apply R.
    + rewrite length_insert. apply R.
    + intros i s Hi. apply list_lookup_insert_Some in Hi as [(_ & <- & _)|[_ Hi]].
      * unfold s1. simpl. by apply (ref_regions _ _ R _ _ Hs0).
      * by apply (ref_regions _ _ R _ _ Hi).
    + done.
    + simpl. lia.
    + apply R.
    + apply R.
    + apply R.
    + done.
    + intros k nf Hk. unfold ring_index at 1. simpl. fold (ring_index b (Z.of_nat k)).
      rewrite <- Hq in Hk.
      destruct (ref_window _ _ R k nf Hk) as (s & Hs & Hst' & Hrd').
      destruct k as [|k].
      * rewrite ring_index_0 in * by lia. rewrite Hs1. exists s1.
        assert (s = s0) as -> by congruence.
        rewrite Hq in Hk. injection Hk as <-. done.
      * exists s. split_and!; [|done|].
        -- rewrite list_lookup_insert_ne; [done|].
           rewrite <- (ring_index_0 b) by lia.
           apply lookup_lt_Some in Hk. rewrite Hq in Hk. simpl in Hk.
           intros Heq. apply ring_index_inj in Heq; lia.
        -- rewrite Hrd'. by rewrite !bool_decide_eq_false_2 by lia.
    + intros k Hk. unfold ring_index at 1. simpl. fold (ring_index b k).
      destruct (ref_free _ _ R k) as (s & Hs & Ho' & Hrd'); [lia|].
      exists s. split; [|done].
      rewrite list_lookup_insert_ne; [done|].
      rewrite <- (ring_index_0 b) by lia.
      intros Heq. apply ring_index_inj in Heq; lia.
  - unfold peeked_bytes. simpl. rewrite (slot_at_lookup _ _ _ Hs1). simpl.
    by rewrite Hpay, Hsz, Hts.
Qed.

Lemma clear_loop_above l (k j : nat) :
  (k ≤ j)%nat → clear_loop l (Z.of_nat k) !! j = l !! j.
Proof.
  unfold clear_loop. rewrite Nat2Z.id. induction k as [|k IH]; intros Hk; [done|].
  rewrite seq_S, foldl_app. simpl. unfold slot_update at 1.
  rewrite Nat2Z.id, list_lookup_insert_ne by lia. apply IH. lia.
Qed.

Lemma clear_loop_lookup l n i :
  clear_loop l n !! i
  = if decide (i < Z.to_nat n)%nat
    then (λ s, mkFrameSlot (slot_data s) (slot_capacity s) (slot_size s)
                 (slot_timestamp_us s) false false) <$> l !! i
    else l !! i.
Proof.
  unfold clear_loop. induction (Z.to_nat n) as [|m IH]; [done|].
  pose proof (clear_loop_above l m m (Nat.le_refl m)) as Hm.
  unfold clear_loop in Hm. rewrite Nat2Z.id in Hm.
  rewrite seq_S, foldl_app. simpl.
  set (acc := foldl _ l (seq 0 m)) in *.
  unfold slot_update. rewrite Nat2Z.id, list_lookup_insert.
  destruct (decide (m = i ∧ (m < length acc)%nat)) as [[<- Hlt]|Hn].
  - rewrite decide_True by lia.
    apply lookup_lt_is_Some in Hlt as [s Hs].
    unfold slot_at. rewrite Nat2Z.id, Hs. rewrite <- Hm, Hs. done.
  - destruct (decide (i = m)) as [->|Hne].
    + rewrite decide_True by lia.
      assert (acc !! m = None) as Hnone by (apply lookup_ge_None; lia).
      rewrite <- Hm, Hnone. done.
    + rewrite IH. repeat case_decide; done || lia.
Qed.

Lemma clear_loop_length l n : length (clear_loop l n) = length l.
Proof.
  unfold clear_loop. induction (Z.to_nat n) as [|m IH]; [done|].
  rewrite seq_S, foldl_app. simpl. unfold slot_update at 1.
  by rewrite length_insert.
Qed.

Lemma refines_clear b q : Refines b q → Refines (clear b) (Queue.clear q).
Proof.
  intros R. unfold clear, Queue.clear. rewrite (ref_initialized _ _ R). simpl.
  pose proof (ref_slots _ _ R) as HN. pose proof (ref_length _ _ R) as Hl.
  assert (Hlook : ∀ i s, clear_loop (slots_ b) (num_slots_ b) !! i = Some s →
    ∃ s0, slots_ b !! i = Some s0 ∧ slot_data s = slot_data s0
          ∧ slot_capacity s = slot_capacity s0
          ∧ slot_occupied s = false ∧ slot_reading s = false).
  { intros i s. rewrite clear_loop_lookup. case_decide as Hd.
    - destruct (slots_ b !! i) as [s0|]; [|done]. simpl. intros [= <-]. by exists s0.
    - intros Hi. apply lookup_lt_Some in Hi. lia. }
  pose proof (clear_loop_length (slots_ b) (num_slots_ b)) as Hlen.
  constructor; simpl.
  - done.
  - apply R.
  - apply R.
  - by rewrite Hlen.
  - intros i s Hi. apply Hlook in Hi as (s0 & Hs0 & -> & -> & _).
    by apply (ref_regions _ _ R _ _ Hs0).
  - lia.
  - done.
  - lia.
  - by rewrite Z.mod_0_l by lia.
  - apply R.
  - done.
  - intros k nf Hk. done.
  - intros k Hk. unfold ring_index. simpl.
    assert (Hlt : (Z.to_nat (k `mod` num_slots_ b)
                   < length (clear_loop (slots_ b) (num_slots_ b)))%nat).
    { rewrite Hlen. pose proof (Z.mod_pos_bound k (num_slots_ b)). lia. }
    apply lookup_lt_is_Some in Hlt as [s Hs]. exists s. split; [done|].
    apply Hlook in Hs as (s0 & _ & _ & _ & ? & ?). done.
Qed.

Lemma refines_dropped b q m :
  Refines b q →
  Refines (with_frames_dropped b (uint32_t (frames_dropped_ b + 1)))
    (Queue.mk (Queue.frames q) (Queue.held q) m (Queue.dropped q + 1)).
Proof.
  intros R. destruct (ref_dropped _ _ R) as [Hd0 Hd].
  constructor; simpl; try apply R.
  split; [lia|]. rewrite Hd. apply uint32_succ.
Qed.


(** On a full buffer whose oldest slot is not being read, [push] is a
    [pop] that counts as a drop, followed by the [push] itself. *)
Lemma push_evicts b q src size ts :
  Refines b q → count_ b = num_slots_ b → Queue.held q = false →
  0 < size ≤ max_frame_size_ b →
  push b (Some src) size ts
  = push (with_frames_dropped (pop b) (uint32_t (frames_dropped_ b + 1)))
      (Some src) size ts.
Proof.
  intros R Hfull Hheld Hsize.
  pose proof (ref_slots _ _ R) as HN. pose proof (ref_count _ _ R) as Hc.
  destruct (Queue.frames q) as [|nf rest] eqn:Hq; [simpl in Hc; lia|].
  destruct (refines_read_slot _ _ _ _ R Hq) as (s0 & Hs0 & Hat & Hst & Hrd).
  rewrite Hheld in Hrd.
  unfold pop. rewrite (ref_initialized _ _ R), gtb_true by lia. simpl.
  unfold push, with_frames_dropped. simpl.
  rewrite (ref_initialized _ _ R), eqb_false, gtb_false, geb_true by lia. simpl.
  rewrite (refines_size_t b q (count_ b - 1)) by (done || lia).
  rewrite (geb_false (count_ b - 1)) by lia.
  unfold slot_update. rewrite !Hat, ?Hrd. simpl. done.
Qed.

Lemma alloc_loop_spec h psram M todo : ∀ i l l',
  0 ≤ M →
  alloc_loop h psram M i todo l = (l', true) →
  (∀ j s, l !! j = Some s → slot_occupied s = false ∧ slot_reading s = false) →
  (∀ j s, (j < i)%nat → l !! j = Some s →
          Z.of_nat (length (slot_data s)) = M ∧ slot_capacity s = M) →
  length l' = length l
  ∧ (∀ j s, l' !! j = Some s → slot_occupied s = false ∧ slot_reading s = false)
  ∧ (∀ j s, (j < i + todo)%nat → l' !! j = Some s →
            Z.of_nat (length (slot_data s)) = M ∧ slot_capacity s = M).
Proof.
  induction todo as [|todo IH]; intros i l l' HM Hal Hfree Hreg; simpl in Hal.
  { injection Hal as <-. split_and!; [done|done|].
    intros j s Hj. apply Hreg. lia. }
  destruct (malloc h (ESP_PLATFORM && psram) i) as [g|]; [|done].
  apply IH in Hal; [|done| |].
  - destruct Hal as (Hlen & Hfree' & Hreg'). rewrite length_insert in Hlen.
    split_and!; [done|done|]. intros j s Hj. apply Hreg'. lia.
  - intros j s Hj. apply list_lookup_insert_Some in Hj as [(<- & <- & Hlt)|[_ Hj]].
    + simpl. apply lookup_lt_is_Some in Hlt as [s0 Hs0].
      unfold slot_at. rewrite Nat2Z.id, Hs0. simpl. by eapply Hfree.
    + by eapply Hfree.
  - intros j s Hj Hl. apply list_lookup_insert_Some in Hl as [(_ & <- & Hlt)|[Hne Hl]].
    + simpl. split; [|done]. unfold region. rewrite length_fmap, length_seq. lia.
    + apply (Hreg j); [lia|done].
Qed.

Lemma refines_init b num_slots max_frame_size use_psram h :
  init empty_buffer num_slots max_frame_size use_psram h = (b, true) →
  0 < num_slots < 2 ^ SIZE_BITS → 0 < max_frame_size →
  Refines b Queue.fresh
  ∧ num_slots_ b = num_slots ∧ max_frame_size_ b = max_frame_size.
Proof.
  intros Hinit HN HM. unfold init in Hinit. simpl in Hinit.
  rewrite !eqb_false in Hinit by lia. simpl in Hinit.
  destruct (new_nothrow h); simpl in Hinit; [|done].
  destruct (alloc_loop _ _ _ _ _ _) as [slots ok] eqn:Hal.
  destruct ok; simpl in Hinit; [|done].
  destruct (ESP_PLATFORM && negb (xSemaphoreCreateMutex h)); [done|].
  injection Hinit as <-. simpl. split; [|done].
  apply alloc_loop_spec in Hal as (Hlen & Hfree & Hreg); [|lia| |].
  2:{ intros j s Hj. apply lookup_replicate in Hj as [-> _]. done. }
  2:{ intros j s Hj. lia. }
  rewrite length_replicate in Hlen.
  constructor; simpl.
  - done.
  - done.
  - done.
  - lia.
  - intros i s Hi. apply (Hreg i); [|done]. apply lookup_lt_Some in Hi. lia.
  - lia.
  - done.
  - lia.
  - by rewrite Z.mod_0_l by lia.
  - done.
  - done.
  - done.
  - intros k Hk. unfold ring_index. simpl.
    assert (Hlt : (Z.to_nat (k `mod` num_slots) < length slots)%nat).
    { pose proof (Z.mod_pos_bound k num_slots). lia. }
    apply lookup_lt_is_Some in Hlt as [s Hs]. exists s. split; [done|].
    by eapply Hfree.
Qed.


Lemma exec_static o b :
  num_slots_ (exec o b).1 = num_slots_ b
  ∧ max_frame_size_ (exec o b).1 = max_frame_size_ b
  ∧ initialized_ (exec o b).1 = initialized_ b.
Proof.
  destruct o; unfold exec, push, peek, pop, clear; simpl;
    repeat (case_match; simpl); by simplify_eq.
Qed.

Lemma refines_status b q :
  Refines b q → status b = queue_status (num_slots_ b) (max_frame_size_ b) q.
Proof.
  intros R. unfold status, queue_status, available, empty, full, capacity,
    max_frame_size.
  by rewrite (ref_initialized _ _ R), (ref_count _ _ R).
Qed.

Lemma refines_exec b q o :
  Refines b q → well_formed o →
  Refines (exec o b).1 (queue_exec (num_slots_ b) (max_frame_size_ b) o q).1
  ∧ view (exec o b) = (queue_exec (num_slots_ b) (max_frame_size_ b) o q).2.
Proof.
  intros R Hwf. destruct o as [data size ts|d s t| |]; simpl.
  - destruct data as [src|]; simpl in Hwf.
    2:{ unfold push. simpl. by rewrite orb_true_r. }
    unfold Queue.push.
    destruct (Z.eq_dec size 0) as [->|Hnz].
    { unfold push. simpl. by rewrite orb_true_r. }
    destruct (Z_gt_dec size (max_frame_size_ b)) as [Hbig|Hfit].
    { unfold push. rewrite (ref_initialized _ _ R), eqb_false, !gtb_true by lia.
      by rewrite orb_true_r. }
    rewrite eqb_false, gtb_false by lia. simpl.
    pose proof (ref_count _ _ R) as Hc. pose proof (ref_bounded _ _ R) as Hb.
    destruct (Z.ltb_spec (Z.of_nat (length (Queue.frames q))) (num_slots_ b))
      as [Hroom|Hfull].
    { destruct (refines_push_room b q src size ts (Queue.pushes q)
                  (S (Queue.pushes q)) R) as [Hok HR]; [lia..|].
      destruct (push b (Some src) size ts) as [b' ok]. simpl in *.
      by subst ok. }
    destruct (Queue.held q) eqn:Hheld.
    + destruct (Queue.frames q) as [|nf rest] eqn:Hq;
        [by apply (ref_held _ _ R) in Hheld|].
      destruct (refines_read_slot _ _ _ _ R Hq) as (s0 & Hs0 & Hat & Hst & Hrd).
      unfold push.
      rewrite (ref_initialized _ _ R), eqb_false, gtb_false, geb_true by lia.
      rewrite Hat, Hrd, Hheld. simpl. split; [|done].
      rewrite <- Hheld, <- Hq. by apply refines_dropped.
    + rewrite (push_evicts b q) by (done || lia).
      set (b1 := with_frames_dropped (pop b) _).
      assert (R1 : Refines b1
                (Queue.mk (Queue.frames (Queue.pop q)) (Queue.held (Queue.pop q))
                   (Queue.pushes q) (Queue.dropped (Queue.pop q) + 1))).
      { pose proof (refines_dropped (pop b) (Queue.pop q) (Queue.pushes q)
                      (refines_pop _ _ R)) as R1.
        assert (frames_dropped_ (pop b) = frames_dropped_ b) as Hfd; [|by rewrite Hfd in R1].
        unfold pop. by repeat (case_match; simpl). }
      pose proof (ref_slots _ _ R) as HN.
      assert (Hst : num_slots_ b1 = num_slots_ b ∧ max_frame_size_ b1 = max_frame_size_ b).
      { destruct (exec_static Pop b) as (? & ? & ?). done. }
      destruct Hst as [HN1 HM1].
      destruct (refines_push_room b1 _ src size ts (Queue.pushes q)
                  (S (Queue.pushes q)) R1) as [Hok HR]; [|lia..|].
      { rewrite HN1, (ref_count _ _ R1). clear R1. unfold Queue.pop.
        destruct (Queue.frames q); simpl in *; lia. }
      destruct (push b1 (Some src) size ts) as [b' ok]. simpl in *. subst ok.
      split; [|done].
      unfold Queue.pop in HR. destruct (Queue.frames q); simpl in *; [lia|done].
  - destruct (refines_peek b q d s t R) as [HR Hv].
    unfold view. simpl.
    destruct (peek b d s t) as [b' r], (Queue.peek q d s t) as [q' r']. simpl in *.
    by rewrite Hv.
  - split; [|done]. by apply refines_pop.
  - split; [|done]. by apply refines_clear.
Qed.

Lemma refines_run ops : ∀ b q,
  Refines b q → Forall well_formed ops →
  Refines (run ops b).1 (queue_run (num_slots_ b) (max_frame_size_ b) ops q).1
  ∧ (run ops b).2 = (queue_run (num_slots_ b) (max_frame_size_ b) ops q).2
  ∧ num_slots_ (run ops b).1 = num_slots_ b
  ∧ max_frame_size_ (run ops b).1 = max_frame_size_ b.
Proof.
  induction ops as [|o ops IH]; intros b q R Hwf; simpl; [done|].
  apply Forall_cons in Hwf as [Hwf Hwfs].
  destruct (refines_exec b q o R Hwf) as [R1 Hv].
  destruct (exec_static o b) as (HN & HM & _).
  destruct (IH _ _ R1 Hwfs) as (R2 & Hlog & HN2 & HM2).
  rewrite HN, HM in *.
  rewrite (refines_status _ _ R1), HN, HM.
  destruct (run ops (exec o b).1) as [b' log].
  destruct (queue_run _ _ ops _) as [q' qlog]. simpl in *.
  by rewrite Hv, Hlog.
Qed.

End Refinement.

(** ** Facts about the queue *)

Section QueueFacts.
Variables (slots max_frame_size : Z).

Lemma ordered_fresh : Queue.ordered Queue.fresh.
Proof. split; intros *; simpl; by rewrite ?lookup_nil. Qed.

Lemma ordered_weaken fs h p d fs' h' p' d' :
  Queue.ordered (Queue.mk fs h p d) →
  (p ≤ p')%nat →
  (∃ n, fs' = drop n fs) →
  Queue.ordered (Queue.mk fs' h' p' d').
Proof.
  intros [Hasc Hlt] Hp [n ->]. simpl in *. split; simpl.
  - intros i j a b Hij. rewrite !fmap_drop, !lookup_drop.
    intros Ha Hb. eapply (Hasc (n + i)%nat (n + j)%nat); [lia|done|done].
  - intros i a. rewrite fmap_drop, lookup_drop. intros Ha.
    apply Hlt in Ha. lia.
Qed.

Lemma ordered_snoc fs h p d f h' d' :
  Queue.ordered (Queue.mk fs h p d) →
  Queue.ordered (Queue.mk (fs ++ [(p, f)]) h' (S p) d').
Proof.
  intros [Hasc Hlt]. simpl in *. split; simpl.
  - intros i j a b Hij. rewrite fmap_app. simpl.
    intros Ha Hb.
    apply lookup_snoc_Some in Ha as [[Hi Ha]|[Hi <-]];
      apply lookup_snoc_Some in Hb as [[Hj Hb]|[Hj <-]].
    + by apply (Hasc i j).
    + by apply (Hlt i).
    + lia.
    + lia.
  - intros i a. rewrite fmap_app. simpl. intros Ha.
    apply lookup_snoc_Some in Ha as [[Hi Ha]|[Hi <-]]; [|lia].
    apply Hlt in Ha. lia.
Qed.

Lemma ordered_exec o q :
  Queue.ordered q → Queue.ordered (queue_exec slots max_frame_size o q).1.
Proof.
  intros Ho. destruct q as [fs h p d].
  destruct o as [data size ts|dd ss tt| |]; simpl.
  - unfold Queue.push. destruct data as [src|]; simpl; [|done].
    destruct ((size =? 0) || (size >? max_frame_size)); simpl; [done|].
    destruct (Z.of_nat (length fs) <? slots); simpl; [by eapply ordered_snoc|].
    destruct h; simpl.
    + eapply ordered_weaken; [done|lia|]. by exists 0%nat.
    + eapply (ordered_snoc _ false p d). eapply ordered_weaken; [done|lia|].
      exists 1%nat. by destruct fs.
  - unfold Queue.peek. simpl.
    destruct (negb dd || negb ss); simpl; [done|].
    destruct fs as [|[n f] rest]; simpl; [done|].
    eapply ordered_weaken; [done|lia|]. by exists 0%nat.
  - unfold Queue.pop. simpl. destruct fs as [|nf rest]; [done|].
    eapply ordered_weaken; [done|lia|]. by exists 1%nat.
  - unfold Queue.clear. simpl.
    eapply ordered_weaken; [done|lia|]. exists (length fs). by rewrite drop_all.
Qed.

(** The oldest frame is at the head. *)
Lemma ordered_head q n f :
  Queue.ordered q → head (Queue.frames q) = Some (n, f) →
  ∀ nf, nf ∈ Queue.frames q → (n ≤ nf.1)%nat.
Proof.
  intros [Hasc _] Hhd nf Hin.
  apply list_elem_of_lookup in Hin as [i Hi].
  destruct (Queue.frames q) as [|x fs] eqn:Hq; [done|].
  simpl in Hhd. injection Hhd as ->.
  destruct i as [|i]; [simpl in Hi; injection Hi as <-; simpl; lia|].
  assert ((n < nf.1)%nat); [|lia].
  apply (Hasc 0%nat (S i)); [lia|done|].
  by rewrite list_lookup_fmap, Hi.
Qed.

(** Valid pushes that find room are appended. *)
Lemma queue_run_room ps : ∀ q,
  Forall (valid_push max_frame_size) ps →
  Z.of_nat (length (Queue.frames q)) + Z.of_nat (length ps) ≤ slots →
  let r := queue_run slots max_frame_size ps q in
  untagged r.1 = untagged q ++ omap frame_of ps
  ∧ Queue.held r.1 = Queue.held q
  ∧ Queue.dropped r.1 = Queue.dropped q
  ∧ r.2.*1 = replicate (length ps) (Queue.Pushed true).
Proof.
  induction ps as [|o ps IH]; intros q Hv Hroom; simpl.
  { unfold untagged. by rewrite app_nil_r. }
  apply Forall_cons in Hv as [Hv Hvs].
  destruct o as [[src|] size ts| | |]; simpl in Hv; try done.
  simpl in Hroom. simpl. unfold Queue.push.
  rewrite eqb_false, gtb_false by lia. simpl.
  destruct (Z.ltb_spec (Z.of_nat (length (Queue.frames q))) slots); [|lia].
  simpl.
  match goal with |- context [queue_run _ _ ps ?q1] =>
    specialize (IH q1 Hvs); destruct (queue_run slots max_frame_size ps q1) as [q' log]
  end.
  simpl in *. rewrite length_app in IH. simpl in IH.
  destruct IH as (Hf & Hh & Hd & Hl); [lia|].
  split_and!; [|done|done|by f_equal].
  rewrite Hf. unfold untagged. simpl. rewrite fmap_app, <- app_assoc. done.
Qed.

(** A consumer that peeks and pops gets the frames from the head on. *)
Lemma queue_run_drain : ∀ fs q,
  Queue.frames q = fs →
  (queue_run slots max_frame_size (drain (length fs)) q).2.*1
  = (fs ≫= λ nf, [Queue.Peeked (Some (Queue.payload nf.2, Queue.frame_size nf.2,
                                        Some (Queue.frame_timestamp_us nf.2)));
                  Queue.Done])
  ∧ Queue.frames (queue_run slots max_frame_size (drain (length fs)) q).1 = [].
Proof.
  induction fs as [|[n f] fs IH]; intros q Hq; [done|].
  simpl. unfold Queue.peek. rewrite Hq. simpl.
  unfold Queue.pop. simpl.
  match goal with |- context [queue_run _ _ _ ?q1] =>
    specialize (IH q1 eq_refl);
    destruct (queue_run slots max_frame_size (drain (length fs)) q1) as [q' log] eqn:Hrun
  end.
  unfold drain in Hrun. rewrite Hrun. simpl in *. destruct IH as [IH ?].
  split; [|done]. do 2 f_equal. exact IH.
Qed.

(** Valid pushes with no reader: the queue keeps the newest [slots] frames
    and counts the others as dropped. *)
Lemma queue_run_overflow ps : ∀ q,
  0 < slots → Queue.held q = false →
  Forall (valid_push max_frame_size) ps →
  Z.of_nat (length (Queue.frames q)) ≤ slots →
  let r := queue_run slots max_frame_size ps q in
  let all := untagged q ++ omap frame_of ps in
  untagged r.1 = drop (length all - Z.to_nat slots) all
  ∧ Queue.held r.1 = false
  ∧ Queue.dropped r.1
    = Queue.dropped q
      + Z.max 0 (Z.of_nat (length (Queue.frames q)) + Z.of_nat (length ps) - slots)
  ∧ r.2.*1 = replicate (length ps) (Queue.Pushed true).
Proof.
  induction ps as [|o ps IH]; intros q HN Hheld Hv Hlen; simpl.
  { unfold untagged. rewrite app_nil_r, length_fmap.
    replace (length (Queue.frames q) - Z.to_nat slots)%nat with 0%nat by lia.
    split_and!; [done|done|lia|done]. }
  apply Forall_cons in Hv as [Hv Hvs].
  destruct o as [[src|] size ts| | |]; simpl in Hv; try done.
  simpl. unfold Queue.push.
  rewrite eqb_false, gtb_false by lia. simpl. rewrite Hheld.
  destruct (Z.ltb_spec (Z.of_nat (length (Queue.frames q))) slots) as [Hroom|Hfull];
    simpl;
    match goal with |- context [queue_run _ _ ps ?q1] =>
      specialize (IH q1 HN eq_refl Hvs);
      destruct (queue_run slots max_frame_size ps q1) as [q' log]
    end; simpl in *.
  - rewrite length_app in IH. simpl in IH.
    destruct IH as (Hf & Hh & Hd & Hl); [lia|].
    split_and!; [|done|lia|by f_equal].
    rewrite Hf. unfold untagged. simpl. by rewrite fmap_app, <- !app_assoc.
  - destruct (Queue.frames q) as [|nf fs] eqn:Hq; [simpl in *; lia|].
    simpl in *. rewrite length_app in IH. simpl in IH.
    destruct IH as (Hf & Hh & Hd & Hl); [lia|].
    split_and!; [|done|lia|by f_equal].
    rewrite Hf. unfold untagged. rewrite Hq. simpl.
    rewrite fmap_app, <- !app_assoc. simpl.
    change (list_omap op Queue.Frame frame_of ps) with (omap frame_of ps).
    match goal with |- drop ?a _ = drop ?b _ =>
      replace a with (length (omap frame_of ps));
      [replace b with (S (length (omap frame_of ps)))|];
      [done| |]; rewrite ?length_app, ?length_fmap, ?length_cons; lia
    end.
Qed.

End QueueFacts.

(** ** Every reachable buffer represents a queue *)

Section Reachable.
Context {B : Build}.
Import FrameBuffer.

Lemma reachable_refines b :
  reachable b → ∃ q, Refines b q ∧ Queue.ordered q.
Proof.
  induction 1 as [b N M p h Hinit HN HM|b o _ [q [R Ho]] Hwf|b _ [q [R Ho]]].
  - exists Queue.fresh. split; [|apply ordered_fresh].
    eapply refines_init; [done|done|lia].
  - destruct (refines_exec b q o R Hwf) as [R' _].
    eexists. split; [done|]. by apply ordered_exec.
  - exists (Queue.mk (Queue.frames q) (Queue.held q) (Queue.pushes q) 0).
    split; [|done]. constructor; try apply R. done.
Qed.

Lemma run_reachable ops : ∀ b,
  reachable b → Forall well_formed ops → reachable (run ops b).1.
Proof.
  induction ops as [|o ops IH]; intros b Hb Hwf; simpl; [done|].
  apply Forall_cons in Hwf as [Hwf Hwfs].
  specialize (IH (exec o b).1 (reach_exec b o Hb Hwf) Hwfs).
  by destruct (run ops (exec o b).1).
Qed.

Lemma valid_push_well_formed M ps :
  Forall (valid_push M) ps → Forall well_formed ps.
Proof.
  intros Hv. eapply Forall_impl; [exact Hv|].
  intros [[src|] size ts| | |]; simpl; try done. lia.
Qed.

Lemma drain_well_formed n : Forall well_formed (drain n).
Proof. unfold drain. induction n as [|n IH]; simpl; by repeat constructor. Qed.

Lemma delivered_frames M ps :
  Forall (valid_push M) ps →
  length (omap frame_of ps) = length ps
  ∧ (omap frame_of ps ≫= λ f,
       [Queue.Peeked (Some (Queue.payload f, Queue.frame_size f,
                            Some (Queue.frame_timestamp_us f)));
        Queue.Done])
    = ps ≫= delivered.
Proof.
  induction 1 as [|o ps Hv _ [IHl IHd]]; [done|].
  destruct o as [[src|] size ts| | |]; simpl in Hv; try done.
  simpl. split; [by f_equal|]. by do 2 f_equal.
Qed.

Lemma bind_untagged {A} (g : Queue.Frame → list A) (fs : list (nat * Queue.Frame)) :
  (fs ≫= λ nf, g nf.2) = fs.*2 ≫= g.
Proof. induction fs as [|nf fs IH]; [done|]. simpl. by f_equal. Qed.

End Reachable.

(** ** Delivery in push order *)

Section Fifo.
Context {B : Build}.
Import FrameBuffer.

(** C1 (FIFO). On a reachable empty buffer, [N] valid pushes with [N] at
    most the capacity all succeed, and the [N] peek/pop pairs that follow
    deliver the frames in push order: each [peek] succeeds and returns the
    bytes, the size and the timestamp given to the corresponding [push]. *)
Theorem fifo_order b pushes :
  reachable b → available b = 0 →
  Forall (valid_push (max_frame_size b)) pushes →
  Z.of_nat (length pushes) ≤ capacity b →
  let filled := run pushes b in
  let drained := run (drain (length pushes)) filled.1 in
  filled.2.*1 = replicate (length pushes) (Queue.Pushed true)
  ∧ drained.2.*1 = pushes ≫= delivered
  ∧ available drained.1 = 0.
Proof.
  unfold available, max_frame_size, capacity.
  intros Hreach Hempty Hvalid Hlen.
  destruct (reachable_refines b Hreach) as (q & R & _).
  assert (Hq : Queue.frames q = []).
  { pose proof (ref_count _ _ R) as Hc. rewrite Hempty in Hc.
    by destruct (Queue.frames q). }
  pose proof (valid_push_well_formed _ _ Hvalid) as Hwf.
  destruct (refines_run pushes b q R Hwf) as (R1 & Hlog1 & HN1 & HM1).
  destruct (queue_run_room (num_slots_ b) (max_frame_size_ b) pushes q Hvalid)
    as (Hfs & _ & _ & Hok); [rewrite Hq; simpl; lia|].
  destruct (delivered_frames _ _ Hvalid) as [Hflen Hdel].
  set (q1 := (queue_run (num_slots_ b) (max_frame_size_ b) pushes q).1) in *.
  assert (Hn : length pushes = length (Queue.frames q1)).
  { rewrite <- Hflen. unfold untagged in Hfs. rewrite Hq in Hfs. simpl in Hfs.
    by rewrite <- Hfs, length_fmap. }
  simpl. rewrite Hlog1. split; [done|].
  destruct (refines_run (drain (length pushes)) (run pushes b).1 q1 R1
              (drain_well_formed _)) as (R2 & Hlog2 & _ & _).
  rewrite HN1, HM1 in *. rewrite Hlog2. rewrite Hn in *.
  destruct (queue_run_drain (num_slots_ b) (max_frame_size_ b)
              (Queue.frames q1) q1 eq_refl) as [Hd Hnil].
  split.
  - rewrite Hd, <- Hdel.
    rewrite (bind_untagged
               (λ f, [Queue.Peeked (Some (Queue.payload f, Queue.frame_size f,
                                          Some (Queue.frame_timestamp_us f)));
                      Queue.Done])).
    unfold untagged in Hfs. by rewrite Hfs, Hq.
  - rewrite (ref_count _ _ R2), Hnil. done.
Qed.

End Fifo.

Lemma fifo_order_witness :
  let b := (FrameBuffer.init (B:=esp32) FrameBuffer.empty_buffer 3 16 false plentiful).1 in
  let pushes := [push_test_frame 4 x11 1000; push_test_frame 8 x22 2000;
                 push_test_frame 12 x33 3000] in
  (run (B:=esp32) (drain 3) (run (B:=esp32) pushes b).1).2.*1 = pushes ≫= delivered.
Proof.
  intros b pushes.
  refine (proj1 (proj2 (fifo_order (B:=esp32) b pushes _ _ _ _))).
  - eapply (reach_init (B:=esp32) b 3 16 false plentiful); [reflexivity|simpl; lia..].
  - reflexivity.
  - repeat constructor; simpl; lia.
  - simpl. lia.
Defined.

Section Overflow.
Context {B : Build}.
Import FrameBuffer.

Lemma valid_omap_lookup M ps :
  Forall (valid_push M) ps →
  ∀ i o, ps !! i = Some o →
  ∃ f, frame_of o = Some f ∧ omap frame_of ps !! i = Some f.
Proof.
  induction 1 as [|o' ps Hv _ IH]; intros i o Hi; [done|].
  destruct o' as [[src|] size ts| | |]; simpl in Hv; try done.
  destruct i as [|i]; simpl in *.
  - injection Hi as <-. by eexists.
  - by apply IH.
Qed.

(** After any number of valid pushes on a freshly initialised buffer. *)
Lemma overflow_general b C M psram h pushes :
  init empty_buffer C M psram h = (b, true) →
  0 < C < 2 ^ SIZE_BITS → 0 < M →
  Forall (valid_push M) pushes →
  let K := Z.of_nat (length pushes) in
  available (run pushes b).1 = Z.min K C
  ∧ frames_dropped (run pushes b).1 = uint32_t (Z.max 0 (K - C))
  ∧ ∃ q, Refines (run pushes b).1 q
         ∧ num_slots_ (run pushes b).1 = C ∧ max_frame_size_ (run pushes b).1 = M
         ∧ untagged q = drop (length pushes - Z.to_nat C) (omap frame_of pushes).
Proof.
  intros Hinit HC HM Hvalid K.
  destruct (refines_init _ _ _ _ _ Hinit HC HM) as (R & HN & HMb).
  pose proof (valid_push_well_formed _ _ Hvalid) as Hwf.
  destruct (refines_run pushes b Queue.fresh R Hwf) as (R1 & _ & HN1 & HM1).
  rewrite HN, HMb in *.
  destruct (queue_run_overflow C M pushes Queue.fresh) as (Hfs & _ & Hd & _);
    [lia|done|done|simpl; lia|].
  simpl in Hfs, Hd.
  destruct (delivered_frames _ _ Hvalid) as [Hflen _].
  set (q1 := (queue_run C M pushes Queue.fresh).1) in *.
  split_and!.
  - unfold available. rewrite (ref_count _ _ R1).
    replace (length (Queue.frames q1)) with (length (untagged q1))
      by (unfold untagged; by rewrite length_fmap).
    rewrite Hfs, length_drop, Hflen. unfold K. lia.
  - unfold frames_dropped. destruct (ref_dropped _ _ R1) as [_ ->].
    rewrite Hd. f_equal; unfold K; lia.
  - exists q1. split_and!; try done. rewrite Hfs. f_equal. lia.
Qed.

End Overflow.

Section Overflowing.
Context {B : Build}.
Import FrameBuffer.

(** C2 (bounded capacity), as the code has it. On a freshly initialised
    buffer of capacity [C], after [K > C] valid pushes and nothing else,
    [available()] is [C], [frames_dropped()] is [K - C] modulo [2^32] (the
    counter is a [uint32_t]), hence [K - C] as long as that is below [2^32],
    and [peek()] yields the frame of push number [K - C + 1], the oldest of
    the [C] newest. With capacity 3 and sizes 100, 200, 300, 400 this is
    [available() = 3], [frames_dropped() = 1] and the frame of size 200. *)
Theorem overflow_keeps_newest b C M psram h pushes :
  init empty_buffer C M psram h = (b, true) →
  0 < C < 2 ^ SIZE_BITS → 0 < M →
  Forall (valid_push M) pushes →
  C < Z.of_nat (length pushes) →
  let K := Z.of_nat (length pushes) in
  let b' := (run pushes b).1 in
  available b' = C
  ∧ frames_dropped b' = uint32_t (K - C)
  ∧ (K - C < 2 ^ 32 → frames_dropped b' = K - C)
  ∧ ∀ o, pushes !! (length pushes - Z.to_nat C)%nat = Some o →
      view (exec (Peek true true true) b')
      = Queue.Peeked ((λ f, (Queue.payload f, Queue.frame_size f,
                             Some (Queue.frame_timestamp_us f))) <$> frame_of o).
Proof.
  intros Hinit HC HM Hvalid HK K b'.
  destruct (overflow_general b C M psram h pushes Hinit HC HM Hvalid)
    as (Ha & Hd & q & R & HN & HMb & Hfs).
  fold b' in Ha, Hd, R, HN, HMb. fold K in Ha, Hd.
  assert (Hd' : frames_dropped b' = uint32_t (K - C)).
  { rewrite Hd. f_equal. lia. }
  split_and!.
  - lia.
  - done.
  - intros Hsmall. rewrite Hd'. apply wrap_small. lia.
  - intros o Ho.
    destruct (valid_omap_lookup _ _ Hvalid _ _ Ho) as (f & Hf & Hfo).
    destruct (refines_exec b' q (Peek true true true) R I) as [_ ->].
    rewrite Hf. simpl. unfold Queue.peek. simpl.
    assert (Hhd : untagged q !! 0%nat = Some f).
    { rewrite Hfs, lookup_drop, Nat.add_0_r. done. }
    unfold untagged in Hhd.
    destruct (Queue.frames q) as [|[n f'] rest]; [done|].
    simpl in Hhd. injection Hhd as ->. done.
Qed.

(** C3 (reader immunity). On a full buffer whose oldest slot is marked as
    being read, a valid push returns [true], increments the 32-bit drop
    counter once, and changes nothing else: [available()], [read_idx_] and
    all the slots are as before, so the bytes behind a pointer obtained from
    [peek], and the size and timestamp read with it, are as before. *)
Theorem reader_immunity b src size ts :
  full b = true →
  slot_reading (slot_at (slots_ b) (read_idx_ b)) = true →
  0 < size ≤ max_frame_size b →
  let b' := (push b (Some src) size ts).1 in
  (push b (Some src) size ts).2 = true
  ∧ frames_dropped b' = uint32_t (frames_dropped b + 1)
  ∧ (0 ≤ frames_dropped b < 2 ^ 32 - 1 → frames_dropped b' = frames_dropped b + 1)
  ∧ available b' = available b
  ∧ read_idx_ b' = read_idx_ b
  ∧ slots_ b' = slots_ b
  ∧ b' = with_frames_dropped b (frames_dropped b')
  ∧ ∀ p, peeked_bytes b' p = peeked_bytes b p
         ∧ slot_size (slot_at (slots_ b') (pk_slot p))
           = slot_size (slot_at (slots_ b) (pk_slot p))
         ∧ slot_timestamp_us (slot_at (slots_ b') (pk_slot p))
           = slot_timestamp_us (slot_at (slots_ b) (pk_slot p)).
Proof.
  unfold full, max_frame_size. intros Hfull Hrd Hsize.
  apply andb_prop in Hfull as [Hinit Hfull].
  unfold push. rewrite Hinit, Hfull, Hrd, eqb_false, gtb_false by lia. simpl.
  split_and!; try done. intros Hd. apply wrap_small. lia.
Qed.

(** C7 (rejected pushes). A push whose size exceeds the maximum frame
    size, whose data pointer is null, whose size is zero, or on a buffer that
    is not initialised, returns [false] and leaves the buffer as it was. *)
Theorem rejected_push_changes_nothing b data size ts :
  size > max_frame_size b ∨ data = None ∨ size = 0 ∨ is_initialized b = false →
  push b data size ts = (b, false).
Proof.
  unfold max_frame_size, is_initialized, push.
  intros [Hbig | [ -> | [ -> | -> ] ] ]; simpl; try by rewrite ?orb_true_r.
  rewrite (gtb_true size) by lia. by destruct (_ || _).
Qed.

End Overflowing.

Lemma overflow_keeps_newest_witness :
  let b := (FrameBuffer.init (B:=host64) FrameBuffer.empty_buffer 3 4096 false plentiful).1 in
  let pushes := [push_test_frame 100 x11 1000; push_test_frame 200 x22 2000;
                 push_test_frame 300 x33 3000; push_test_frame 400 x44 4000] in
  let b' := (run (B:=host64) pushes b).1 in
  FrameBuffer.available b' = 3
  ∧ FrameBuffer.frames_dropped b' = 1
  ∧ view (exec (B:=host64) (Peek true true true) b')
    = Queue.Peeked (Some (make_test_frame 200 x22, 200, Some 2000)).
Proof.
  intros b pushes b'.
  destruct (overflow_keeps_newest (B:=host64) b 3 4096 false plentiful pushes)
    as (Ha & _ & Hd & Hp).
  - reflexivity.
  - simpl. lia.
  - lia.
  - repeat constructor; simpl; lia.
  - simpl. lia.
  - split_and!.
    + exact Ha.
    + apply Hd. simpl. lia.
    + exact (Hp (push_test_frame 200 x22 2000) eq_refl).
Defined.

(** C2 as stated does not hold: after [2^32 + 1] valid pushes on a buffer
    of capacity 1 the 32-bit drop counter has wrapped around to 0, while
    [K - C] is [2^32]. *)
Lemma overflow_count_wraps :
  let C := 1 in
  let K := Z.of_nat (length wrapping_pushes) in
  let b := (FrameBuffer.init (B:=esp32) FrameBuffer.empty_buffer C 1 false plentiful).1 in
  FrameBuffer.is_initialized b = true
  ∧ FrameBuffer.capacity b = C
  ∧ Forall (valid_push (FrameBuffer.max_frame_size b)) wrapping_pushes
  ∧ K > C
  ∧ FrameBuffer.frames_dropped (run (B:=esp32) wrapping_pushes b).1 = 0
  ∧ K - C = 2 ^ 32
  ∧ FrameBuffer.frames_dropped (run (B:=esp32) wrapping_pushes b).1 ≠ K - C.
Proof.
  intros C K b.
  assert (HK : K = 2 ^ 32 + 1).
  { unfold K, wrapping_pushes. rewrite length_replicate. apply Z2Nat.id. lia. }
  assert (Hvalid : Forall (valid_push 1) wrapping_pushes).
  { apply Forall_replicate. simpl. lia. }
  destruct (overflow_general (B:=esp32) b 1 1 false plentiful wrapping_pushes)
    as (_ & Hd & _).
  - reflexivity.
  - simpl. lia.
  - lia.
  - exact Hvalid.
  - fold K in Hd. clearbody K. subst K. unfold C.
    assert (Hz : uint32_t (0 `max` (2 ^ 32 + 1 - 1)) = 0) by reflexivity.
    rewrite Hz in Hd.
    split_and!; [reflexivity|reflexivity|exact Hvalid|lia|exact Hd|lia|].
    rewrite Hd. lia.
Qed.

Lemma reader_immunity_witness :
  let b0 := (FrameBuffer.init (B:=esp32) FrameBuffer.empty_buffer 3 16 false plentiful).1 in
  let filled := (run (B:=esp32)
                   [push_test_frame 4 x11 1000; push_test_frame 8 x22 2000;
                    push_test_frame 12 x33 3000; Peek true true true] b0).1 in
  let b' := (FrameBuffer.push (B:=esp32) filled (Some (make_test_frame 16 x44)) 16 4000).1 in
  FrameBuffer.frames_dropped b' = 1
  ∧ FrameBuffer.available b' = 3
  ∧ FrameBuffer.slots_ b' = FrameBuffer.slots_ filled.
Proof.
  intros b0 filled b'.
  destruct (reader_immunity (B:=esp32) filled (make_test_frame 16 x44) 16 4000)
    as (_ & Hd & _ & Ha & _ & Hs & _).
  - reflexivity.
  - reflexivity.
  - simpl. lia.
  - split_and!; [exact Hd|exact Ha|exact Hs].
Defined.

Lemma rejected_push_changes_nothing_witness :
  let b := (FrameBuffer.init (B:=esp32) FrameBuffer.empty_buffer 3 16 false plentiful).1 in
  FrameBuffer.push (B:=esp32) b (Some (make_test_frame 17 xaa)) 17 0 = (b, false).
Proof.
  intros b. apply (rejected_push_changes_nothing (B:=esp32)).
  left. simpl. lia.
Defined.

Section Invariants.
Context {B : Build}.
Import FrameBuffer.

Lemma ring_index_surj b i :
  0 < num_slots_ b → 0 ≤ read_idx_ b < num_slots_ b →
  (i < Z.to_nat (num_slots_ b))%nat →
  ∃ k, 0 ≤ k < num_slots_ b ∧ ring_index b k = i.
Proof.
  intros HN Hr Hi. exists ((Z.of_nat i - read_idx_ b) `mod` num_slots_ b).
  split; [apply Z.mod_pos_bound; lia|].
  unfold ring_index. rewrite Zplus_mod_idemp_r.
  replace (read_idx_ b + (Z.of_nat i - read_idx_ b)) with (Z.of_nat i) by lia.
  rewrite Z.mod_small by lia. lia.
Qed.

(** Every slot is either in the window, where it stores a frame of the
    queue, or free. *)
Lemma refines_slot b q i s :
  Refines b q → slots_ b !! i = Some s →
  (∃ k nf, Queue.frames q !! k = Some nf ∧ i = ring_index b (Z.of_nat k)
           ∧ stores s nf.2
           ∧ slot_reading s = bool_decide (k = 0%nat) && Queue.held q)
  ∨ (slot_occupied s = false ∧ slot_reading s = false).
Proof.
  intros R Hs.
  pose proof (ref_slots _ _ R) as HN. pose proof (ref_read _ _ R) as Hr.
  pose proof (ref_length _ _ R) as Hl. pose proof (ref_count _ _ R) as Hc.
  assert (Hi : (i < Z.to_nat (num_slots_ b))%nat).
  { apply lookup_lt_Some in Hs. lia. }
  destruct (ring_index_surj b i) as (k & Hk & <-); [lia..|].
  destruct (Z_lt_dec k (count_ b)) as [Hin|Hout].
  - left.
    assert (Hlt : (Z.to_nat k < length (Queue.frames q))%nat) by lia.
    apply lookup_lt_is_Some in Hlt as [nf Hnf].
    destruct (ref_window _ _ R _ _ Hnf) as (s' & Hs' & Hst & Hrd).
    rewrite Z2Nat.id in Hs' by lia.
    assert (s' = s) as -> by congruence.
    exists (Z.to_nat k), nf. rewrite Z2Nat.id by lia. done.
  - right. destruct (ref_free _ _ R k) as (s' & Hs' & Ho & Hrd); [lia|].
    assert (s' = s) as -> by congruence. done.
Qed.

Lemma refines_invariant b q :
  Refines b q → Queue.ordered q → ring_invariant b q.
Proof.
  intros R Hord.
  pose proof (ref_slots _ _ R) as HN. pose proof (ref_read _ _ R) as Hr.
  pose proof (ref_count _ _ R) as Hc. pose proof (ref_bounded _ _ R) as Hb.
  assert (Hrd : ∀ i s, slots_ b !! i = Some s → slot_reading s = true →
            i = Z.to_nat (read_idx_ b) ∧ slot_occupied s = true).
  { intros i s Hs Hrd.
    destruct (refines_slot _ _ _ _ R Hs) as [(k & nf & Hk & -> & Hst & Hrd')|[_ Hrd']];
      [|congruence].
    rewrite Hrd in Hrd'. symmetry in Hrd'. apply andb_prop in Hrd' as [Hk0 _].
    apply bool_decide_eq_true in Hk0 as ->.
    split; [apply ring_index_0; lia|apply Hst]. }
  unfold ring_invariant. split_and!.
  - lia.
  - done.
  - unfold empty. split; [intros ->; done|]. intros H%Z.eqb_eq. done.
  - split.
    + intros Hz i s Hs.
      destruct (refines_slot _ _ _ _ R Hs) as [(k & nf & Hk & _)|[Ho _]]; [|done].
      apply lookup_lt_Some in Hk. lia.
    + intros Hnone.
      destruct (Queue.frames q) as [|nf rest] eqn:Hq; [simpl in Hc; lia|].
      destruct (refines_read_slot _ _ _ _ R Hq) as (s & Hs & _ & Hst & _).
      apply Hnone in Hs. destruct Hst as [Ho _]. congruence.
  - intros i s Hs Ho.
    destruct (refines_slot _ _ _ _ R Hs) as [(k & nf & Hk & Hi & Hst & _)|[Ho' _]];
      [|congruence].
    by exists k, nf.
  - intros n f Hhd. split; [|by eapply ordered_head].
    destruct (Queue.frames q) as [|nf rest] eqn:Hq; [done|].
    simpl in Hhd. injection Hhd as ->.
    destruct (refines_read_slot _ _ _ _ R Hq) as (s & _ & -> & Hst & _). done.
  - done.
  - intros i j si sj Hi Hj Hri Hrj.
    destruct (Hrd _ _ Hi Hri) as [-> _]. destruct (Hrd _ _ Hj Hrj) as [-> _]. done.
Qed.

(** C5 (ring invariants). With the frames of the buffer tracked, in push
    order and numbered by their pushes, by the queue of the design document:
    the invariants hold in the buffer as constructed; the correspondence
    with the queue holds right after a successful [init]; [push],
    [peek], [pop] and [clear] preserve it; and it gives the invariants of the
    document: [0 ≤ count ≤ N], [count = 0] exactly when the buffer is empty,
    the slot at [read_idx_] stores the oldest frame, and only the slot at
    [read_idx_] can be marked as being read. *)
Theorem ring_invariants :
  ring_invariant empty_buffer Queue.fresh
  ∧ (∀ b N M psram h,
       init empty_buffer N M psram h = (b, true) →
       0 < N < 2 ^ SIZE_BITS → 0 < M →
       Refines b Queue.fresh ∧ Queue.ordered Queue.fresh)
  ∧ (∀ b q o,
       Refines b q → Queue.ordered q → well_formed o →
       let q' := (queue_exec (num_slots_ b) (max_frame_size_ b) o q).1 in
       Refines (exec o b).1 q' ∧ Queue.ordered q')
  ∧ (∀ b q, Refines b q → Queue.ordered q → ring_invariant b q).
Proof.
  split_and!.
  - unfold ring_invariant. simpl. split_and!; try done; intros *; by rewrite ?lookup_nil.
  - intros b N M psram h Hinit HN HM. split; [|apply ordered_fresh].
    by eapply refines_init.
  - intros b q o R Hord Hwf q'. split; [|by apply ordered_exec].
    by apply refines_exec.
  - apply refines_invariant.
Qed.

End Invariants.

Lemma ring_invariants_witness :
  let b := (FrameBuffer.init (B:=esp32) FrameBuffer.empty_buffer 3 16 false plentiful).1 in
  let o := push_test_frame 4 x11 1000 in
  ring_invariant b Queue.fresh
  ∧ ring_invariant (exec (B:=esp32) o b).1 (queue_exec 3 16 o Queue.fresh).1.
Proof.
  intros b o.
  destruct (ring_invariants (B:=esp32)) as (_ & Hinit & Hstep & Hinv).
  destruct (Hinit b 3 16 false plentiful) as [R Hord];
    [reflexivity|simpl; lia|lia|].
  destruct (Hstep b Queue.fresh o R Hord) as [R' Hord']; [simpl; lia|].
  split; [exact (Hinv _ _ R Hord)|exact (Hinv _ _ R' Hord')].
Defined.

(** ** A cleared buffer and a fresh one *)

Section Similar.
Variables (slots max_frame_size : Z).

Lemma similar_length q1 q2 :
  similar q1 q2 → length (Queue.frames q1) = length (Queue.frames q2).
Proof.
  intros [Hfs _]. unfold untagged in Hfs.
  apply (f_equal length) in Hfs. by rewrite !length_fmap in Hfs.
Qed.

Lemma similar_exec o q1 q2 :
  similar q1 q2 →
  let r1 := queue_exec slots max_frame_size o q1 in
  let r2 := queue_exec slots max_frame_size o q2 in
  similar r1.1 r2.1 ∧ r1.2 = r2.2
  ∧ Queue.dropped r1.1 - Queue.dropped q1 = Queue.dropped r2.1 - Queue.dropped q2.
Proof.
  intros Hsim. pose proof (similar_length _ _ Hsim) as Hlen.
  destruct Hsim as [Hfs Hh].
  unfold similar, untagged in *.
  destruct q1 as [fs1 h1 p1 d1], q2 as [fs2 h2 p2 d2]. simpl in *. subst h2.
  destruct o as [data size ts|dd ss tt| |]; simpl.
  - unfold Queue.push. destruct data as [src|]; simpl; [|split_and!; [done..|lia]].
    destruct ((size =? 0) || (size >? max_frame_size)); simpl;
      [split_and!; [done..|lia]|].
    rewrite Hlen.
    destruct (Z.of_nat (length fs2) <? slots); simpl.
    { rewrite !fmap_app, Hfs. split_and!; [done..|lia]. }
    destruct h1; simpl; [split_and!; [done..|lia]|].
    rewrite !fmap_app, !fmap_tail, Hfs. split_and!; [done..|lia].
  - unfold Queue.peek. simpl.
    destruct (negb dd || negb ss); simpl; [split_and!; [done..|lia]|].
    destruct fs1 as [|[n1 f1] fs1], fs2 as [|[n2 f2] fs2]; simpl in *; try done.
    + split_and!; [done..|lia].
    + injection Hfs as -> Hfs. split_and!; [by f_equal|done|done|lia].
  - unfold Queue.pop. simpl.
    destruct fs1 as [|[n1 f1] fs1], fs2 as [|[n2 f2] fs2]; simpl in *; try done.
    + split_and!; [done..|lia].
    + injection Hfs as -> Hfs. split_and!; [done..|lia].
  - split_and!; [done..|lia].
Qed.

Lemma similar_run ops : ∀ q1 q2,
  similar q1 q2 →
  let r1 := queue_run slots max_frame_size ops q1 in
  let r2 := queue_run slots max_frame_size ops q2 in
  r1.2 = r2.2
  ∧ Queue.dropped r1.1 - Queue.dropped q1 = Queue.dropped r2.1 - Queue.dropped q2.
Proof.
  induction ops as [|o ops IH]; intros q1 q2 Hsim; simpl; [split; [done|lia]|].
  destruct (similar_exec o q1 q2 Hsim) as (Hsim' & Hres & Hd).
  specialize (IH _ _ Hsim'). simpl in IH.
  unfold queue_status. rewrite (similar_length _ _ Hsim'), Hres.
  destruct (queue_run _ _ ops (queue_exec _ _ o q1).1) as [q1' log1].
  destruct (queue_run _ _ ops (queue_exec _ _ o q2).1) as [q2' log2].
  simpl in *. destruct IH as [-> Hd']. split; [done|lia].
Qed.

End Similar.

Section Clear.
Context {B : Build}.
Import FrameBuffer.

(** C8 (clear). For a reachable buffer [b], [clear()] leaves
    [frames_dropped()] as it is, and afterwards every sequence of pushes,
    peeks, pops and clears gives its callers the same return values, the same
    frames (bytes, size, timestamp) and the same [available()], [empty()],
    [full()], [capacity()] and [max_frame_size()] as on a freshly initialised
    buffer of the same capacity and maximum frame size; only
    [frames_dropped()] differs: it is, modulo [2^32], its value before the
    [clear()] plus what the fresh buffer counts. *)
Theorem clear_like_fresh b fresh_b psram h ops :
  reachable b →
  init empty_buffer (capacity b) (max_frame_size b) psram h = (fresh_b, true) →
  Forall well_formed ops →
  frames_dropped (clear b) = frames_dropped b
  ∧ (run ops (clear b)).2 = (run ops fresh_b).2
  ∧ frames_dropped (run ops (clear b)).1
    = uint32_t (frames_dropped b + frames_dropped (run ops fresh_b).1).
Proof.
  unfold capacity, max_frame_size, frames_dropped. intros Hreach Hinit Hwf.
  destruct (reachable_refines b Hreach) as (q & R & _).
  pose proof (refines_clear _ _ R) as Rc.
  destruct (refines_init _ _ _ _ _ Hinit (ref_slots _ _ R) (ref_max _ _ R))
    as (Rf & HNf & HMf).
  destruct (exec_static Clear b) as (HNc & HMc & _). simpl in HNc, HMc.
  destruct (refines_run ops _ _ Rc Hwf) as (Rc' & Hlogc & _).
  destruct (refines_run ops _ _ Rf Hwf) as (Rf' & Hlogf & _).
  rewrite HNc, HMc in *. rewrite HNf, HMf in *.
  destruct (similar_run (num_slots_ b) (max_frame_size_ b) ops
              (Queue.clear q) Queue.fresh) as [Hlog Hd]; [done|].
  simpl in Hd.
  split_and!.
  - unfold clear. by destruct (initialized_ b).
  - by rewrite Hlogc, Hlogf.
  - destruct (ref_dropped _ _ Rc') as [_ ->]. destruct (ref_dropped _ _ Rf') as [_ ->].
    destruct (ref_dropped _ _ R) as [_ ->].
    unfold uint32_t, wrap. rewrite <- Zplus_mod. f_equal. lia.
Qed.

End Clear.

Lemma clear_like_fresh_witness :
  let b0 := (FrameBuffer.init (B:=esp32) FrameBuffer.empty_buffer 2 16 false plentiful).1 in
  let b := (run (B:=esp32)
              [push_test_frame 4 x11 1; push_test_frame 4 x22 2;
               push_test_frame 4 x33 3; Peek true true true] b0).1 in
  let ops := [push_test_frame 8 x44 4; push_test_frame 8 x55 5; push_test_frame 8 x66 6;
              Peek true true true; Pop; Peek true true false] in
  FrameBuffer.frames_dropped (FrameBuffer.clear b) = 1
  ∧ (run (B:=esp32) ops (FrameBuffer.clear b)).2 = (run (B:=esp32) ops b0).2
  ∧ FrameBuffer.frames_dropped (run (B:=esp32) ops (FrameBuffer.clear b)).1 = 2.
Proof.
  intros b0 b ops.
  destruct (clear_like_fresh (B:=esp32) b b0 false plentiful ops) as (Hc & Hlog & Hd).
  - apply (run_reachable (B:=esp32)); [|repeat constructor; simpl; lia].
    eapply (reach_init (B:=esp32) b0 2 16 false plentiful); [reflexivity|simpl; lia..].
  - reflexivity.
  - repeat constructor; simpl; lia.
  - split_and!; [exact Hc|exact Hlog|exact Hd].
Defined.

(** ** The streaming service *)

Lemma int64_t_in_range x : int64_range x → int64_t x = x.
Proof.
  unfold int64_range, int64_t, wrap_signed. intros Hx.
  rewrite Z.mod_small; lia.
Qed.

Section Service.
Context {B : Build}.
Import StreamingService.

(** C6 (drift-bounded scheduling). In a pass of the producer loop that
    captures, with a clock that did not go backwards during the pass and
    without signed overflow, the new [next_capture_time] is at most one
    interval after the last clock reading [now]; when the advanced target
    lies in the past (the capture came more than one interval late) it is
    exactly [now + interval], otherwise it is the old target plus one
    interval. *)
Theorem drift_bounded {W} {clock_ : interfaces.IClock W} {camera_ : interfaces.ICamera W}
    (s : t) (w : W) (next_capture_time : Z) :
  let p := producer_iteration s w next_capture_time in
  let interval := frame_interval_us_ s in
  next_capture_time ≤ (interfaces.now_us w).1 →
  (interfaces.now_us w).1 ≤ pass_now p →
  int64_range (next_capture_time + interval) →
  int64_range (pass_now p + interval) →
  pass_next_capture_time p ≤ pass_now p + interval
  ∧ (next_capture_time + interval < pass_now p →
     pass_next_capture_time p = pass_now p + interval)
  ∧ (pass_now p ≤ next_capture_time + interval →
     pass_next_capture_time p = next_capture_time + interval).
Proof.
  unfold producer_iteration.
  destruct (interfaces.now_us w) as [now0 w0]. simpl.
  intros Hdue. rewrite (proj2 (Z.ltb_ge now0 next_capture_time)) by lia.
  destruct (interfaces.capture_frame w0) as [frame w1].
  set (tail := λ (sw : t * W),
    let '(s', w') := sw in
    let n := int64_t (next_capture_time + frame_interval_us_ s') in
    let '(now, w'') := interfaces.now_us w' in
    mkPass s' w'' (if n <? now then int64_t (now + frame_interval_us_ s') else n) now).
  assert (Htail : ∀ s' w',
    frame_interval_us_ s' = frame_interval_us_ s →
    let p := tail (s', w') in
    now0 ≤ pass_now p →
    int64_range (next_capture_time + frame_interval_us_ s) →
    int64_range (pass_now p + frame_interval_us_ s) →
    pass_next_capture_time p ≤ pass_now p + frame_interval_us_ s
    ∧ (next_capture_time + frame_interval_us_ s < pass_now p →
       pass_next_capture_time p = pass_now p + frame_interval_us_ s)
    ∧ (pass_now p ≤ next_capture_time + frame_interval_us_ s →
       pass_next_capture_time p = next_capture_time + frame_interval_us_ s)).
  { intros s' w' Hint. unfold tail. rewrite Hint.
    destruct (interfaces.now_us w') as [now1 w2]. simpl.
    intros Hmono Hr1 Hr2. rewrite (int64_t_in_range _ Hr1).
    destruct (Z.ltb_spec (next_capture_time + frame_interval_us_ s) now1).
    - rewrite (int64_t_in_range _ Hr2). lia.
    - lia. }
  destruct (interfaces.valid frame).
  - destruct (FrameBuffer.push _ _ _ _) as [buf pushed].
    destruct pushed; by apply (Htail _ _).
  - by apply (Htail _ _).
Qed.

(** C9 (release without a frame). [release_frame()] increments the 32-bit
    [frames_sent] counter in every state; when the buffer is empty the [pop()]
    it calls changes nothing, so nothing but the counter changes; and in the
    service right after [init], where no frame was captured and [get_frame]
    delivers none, one [release_frame()] leaves [frames_sent] at 1, above the
    number of frames delivered (0) and above [frames_captured] (0). *)
Theorem release_frame_always_counts :
  (∀ s, frames_sent (stats_ (release_frame s))
        = uint32_t (frames_sent (stats_ s) + 1)
        ∧ (0 ≤ frames_sent (stats_ s) < 2 ^ 32 - 1 →
           frames_sent (stats_ (release_frame s)) = frames_sent (stats_ s) + 1))
  ∧ (∀ s, FrameBuffer.empty (buffer_ s) = true →
          buffer_ (release_frame s) = buffer_ s
          ∧ frames_captured (stats_ (release_frame s)) = frames_captured (stats_ s))
  ∧ (∀ h config s,
       init constructed config h = Returns (s, true) →
       (get_frame_nowait s true true).2 = None
       ∧ frames_captured (stats_ (release_frame s)) = 0
       ∧ frames_sent (stats_ (release_frame s)) = 1
       ∧ frames_sent (stats_ (release_frame s))
         > frames_captured (stats_ (release_frame s))).
Proof.
  assert (Hpop : ∀ s, FrameBuffer.empty (buffer_ s) = true →
            FrameBuffer.pop (buffer_ s) = buffer_ s).
  { intros s He. unfold FrameBuffer.empty in He. apply Z.eqb_eq in He.
    unfold FrameBuffer.pop. rewrite He. simpl. by destruct (negb _). }
  split_and!.
  - intros s. split; [done|]. intros Hs. simpl. apply wrap_small. lia.
  - intros s He. simpl. by rewrite Hpop.
  - intros h config s Hinit. unfold init in Hinit. simpl in Hinit.
    destruct (target_fps config =? 0); [done|].
    destruct (FrameBuffer.init _ _ _ _ _) as [buf ok] eqn:Hbuf.
    destruct ok; simpl in Hinit; [|by simplify_eq].
    destruct (ESP_PLATFORM && negb (xSemaphoreCreateBinary h)); [by simplify_eq|].
    assert (Hcount : FrameBuffer.count_ buf = 0).
    { unfold FrameBuffer.init in Hbuf. simpl in Hbuf.
      repeat (case_match; simplify_eq); done. }
    injection Hinit as <-. unfold get_frame_nowait. simpl.
    unfold FrameBuffer.empty. rewrite Hcount. simpl. done.
Qed.

(** C10 (second init). On an initialised service [init(config)] returns
    [true] and changes nothing, whatever [config] is: the stored
    configuration, the frame interval and the ring buffer are as before. *)
Theorem init_twice_ignores_config s config h :
  initialized_ s = true →
  init s config h = Returns (s, true).
Proof. intros Hinit. unfold init. by rewrite Hinit. Qed.

(** C4, what the code does with an invalid rate. [init] performs the
    division [1000000 / target_fps] before any check: with a rate of zero on
    a service that is not initialised the division by zero is reached, and
    [init] does not return [false]; a rate above 30, which [set_target_fps]
    rejects, is accepted; and when the buffer then refuses its arguments,
    [init] returns [false] with the new configuration and interval stored. *)
Theorem init_does_not_check_rate :
  (∀ s config h,
     initialized_ s = false → target_fps config = 0 →
     init s config h = Undefined)
  ∧ (∀ s slots size timeout,
       initialized_ s = false → FrameBuffer.initialized_ (buffer_ s) = false →
       0 < slots < 2 ^ SIZE_BITS → 0 < size →
       ∃ s', init s (mkStreamingConfig 255 slots size timeout) plentiful
             = Returns (s', true)
             ∧ get_target_fps s' = 255 ∧ frame_interval_us_ s' = 3921
             ∧ set_target_fps s 255 = s)
  ∧ (∀ s fps size timeout h,
       initialized_ s = false → FrameBuffer.initialized_ (buffer_ s) = false →
       fps ≠ 0 →
       ∃ s', init s (mkStreamingConfig fps 0 size timeout) h = Returns (s', false)
             ∧ config_ s' = mkStreamingConfig fps 0 size timeout
             ∧ frame_interval_us_ s' = 1000000 ÷ fps).
Proof.
  split_and!.
  - intros s config h Hs Hfps. unfold init. by rewrite Hs, Hfps.
  - intros s slots size timeout Hs Hb Hslots Hsize. unfold init. rewrite Hs. simpl.
    destruct (FrameBuffer.init (buffer_ s) slots size true plentiful) as [buf ok] eqn:Hbuf.
    assert (ok = true) as ->.
    { unfold FrameBuffer.init in Hbuf. rewrite Hb, !eqb_false in Hbuf by lia.
      simpl in Hbuf.
      destruct (FrameBuffer.alloc_loop _ _ _ _ _ _) as [l ok'] eqn:Hal.
      assert (ok' = true) as ->.
      { clear -Hal. revert Hal. generalize (replicate (Z.to_nat slots) FrameBuffer.default_slot).
        generalize 0%nat. induction (Z.to_nat slots) as [|n IH]; intros i l0 Hal;
          simpl in Hal; [by simplify_eq|]. by eapply IH. }
      simpl in Hbuf. rewrite andb_false_r in Hbuf. by simplify_eq. }
    simpl. rewrite andb_false_r. eexists. split_and!; try done.
  - intros s fps size timeout h Hs Hb Hfps. unfold init. rewrite Hs, eqb_false by done.
    simpl. unfold FrameBuffer.init. rewrite Hb. simpl. eexists. done.
Qed.

End Service.

Ltac evaluate := vm_compute; repeat split; first [reflexivity | discriminate].

Lemma drift_bounded_witness :
  let s := initialized_service (B:=host64)
             (StreamingService.mkStreamingConfig 10 3 16 1000) plentiful in
  let w := mocks.mkWorld 1000000 10000 true true 0 (make_test_frame 8 x11) 250000 in
  let p := StreamingService.producer_iteration (B:=host64)
             (clock_:=mocks.MockClock) (camera_:=mocks.MockCamera) s w 1000000 in
  StreamingService.pass_now p = 1260000
  ∧ StreamingService.pass_next_capture_time p = 1360000.
Proof.
  intros s w p.
  destruct (StreamingService.pass_now p =? 1260000) eqn:Hnow; [|discriminate Hnow].
  apply Z.eqb_eq in Hnow.
  destruct (drift_bounded (B:=host64) (clock_:=mocks.MockClock)
              (camera_:=mocks.MockCamera) s w 1000000) as (_ & Hlate & _);
    [evaluate..|].
  split; [exact Hnow|].
  etrans; [apply Hlate; evaluate|evaluate].
Defined.

Lemma release_frame_always_counts_witness :
  let s := initialized_service (B:=esp32)
             (StreamingService.mkStreamingConfig 5 3 16 1000) plentiful in
  let s' := StreamingService.release_frame (B:=esp32) s in
  (StreamingService.get_frame_nowait s true true).2 = None
  ∧ StreamingService.frames_sent (StreamingService.stats_ s') = 1
  ∧ StreamingService.frames_captured (StreamingService.stats_ s') = 0
  ∧ StreamingService.buffer_ s' = StreamingService.buffer_ s.
Proof.
  intros s s'.
  destruct (release_frame_always_counts (B:=esp32)) as (_ & Hempty & Hfresh).
  destruct (Hfresh plentiful (StreamingService.mkStreamingConfig 5 3 16 1000) s)
    as (Hget & Hcap & Hsent & _); [reflexivity|].
  destruct (Hempty s) as [Hbuf _]; [reflexivity|].
  split_and!; [exact Hget|exact Hsent|exact Hcap|exact Hbuf].
Defined.

Lemma init_twice_ignores_config_witness :
  let s := initialized_service (B:=esp32)
             (StreamingService.mkStreamingConfig 5 3 16 1000) plentiful in
  StreamingService.init (B:=esp32) s (StreamingService.mkStreamingConfig 0 7 32 50) plentiful
  = StreamingService.Returns (s, true)
  ∧ StreamingService.get_target_fps s = 5.
Proof.
  intros s. split; [|reflexivity].
  apply (init_twice_ignores_config (B:=esp32)). reflexivity.
Defined.

Lemma init_does_not_check_rate_witness :
  StreamingService.init (B:=esp32) StreamingService.constructed
    (StreamingService.mkStreamingConfig 0 3 (100 * 1024) 1000) plentiful
  = StreamingService.Undefined.
Proof.
  destruct (init_does_not_check_rate (B:=esp32)) as (Hzero & _ & _).
  apply Hzero; reflexivity.
Defined.

(** * Further properties of the code *)

(** ** What is waiting in a buffer *)

Section Pending.
Context {B : Build}.
Import FrameBuffer.

Lemma seen_drained (fs : list (nat * Queue.Frame)) :
  omap seen (fs ≫= λ nf, [Queue.Peeked (Some (Queue.payload nf.2, Queue.frame_size nf.2,
                                               Some (Queue.frame_timestamp_us nf.2)));
                          Queue.Done])
  = frame_view <$> fs.*2.
Proof. induction fs as [|nf fs IH]; [done|]. simpl. by f_equal. Qed.

Lemma pending_refines b q : Refines b q → pending b = frame_view <$> untagged q.
Proof.
  intros R. unfold pending, available. rewrite (ref_count _ _ R), Nat2Z.id.
  destruct (refines_run (drain (length (Queue.frames q))) b q R (drain_well_formed _))
    as (_ & Hlog & _).
  rewrite Hlog.
  destruct (queue_run_drain (num_slots_ b) (max_frame_size_ b) (Queue.frames q) q eq_refl)
    as [Hd _].
  rewrite Hd. apply seen_drained.
Qed.

Lemma sized_exec N M o q :
  well_formed o → sized M q → sized M (queue_exec N M o q).1.
Proof.
  intros Hwf Hs. destruct o as [[src|] size ts|d s t| |]; simpl; try done.
  - unfold Queue.push. simpl in Hwf.
    destruct (Z.eq_dec size 0) as [->|Hnz]; [done|].
    destruct (Z_gt_dec size M) as [Hbig|Hfit].
    { by rewrite eqb_false, gtb_true by lia. }
    rewrite eqb_false, gtb_false by lia. simpl.
    assert (Hf : 0 < size ≤ M
                 ∧ Z.of_nat (length (take (Z.to_nat size) src)) = size).
    { split; [lia|]. rewrite length_take. lia. }
    unfold sized in *.
    destruct (_ <? _); simpl.
    { apply Forall_app. split; [done|]. by constructor. }
    destruct (Queue.held q); simpl; [done|].
    apply Forall_app. split; [|by constructor].
    destruct (Queue.frames q); [done|]. simpl. by apply Forall_cons in Hs as [_ Hs].
  - unfold Queue.peek. destruct (negb d || negb s); [done|].
    unfold sized in *. destruct (Queue.frames q) as [|[n f] rest] eqn:E; simpl; [|done].
    by rewrite E.
  - unfold Queue.pop, sized in *.
    destruct (Queue.frames q) as [|nf rest] eqn:E; simpl; [by rewrite E|].
    by apply Forall_cons in Hs as [_ Hs].
  - constructor.
Qed.

Lemma reachable_sized b :
  reachable b → ∃ q, Refines b q ∧ sized (max_frame_size_ b) q.
Proof.
  induction 1 as [b N M p h Hinit HN HM|b o _ [q [R Hs]] Hwf|b _ [q [R Hs]]].
  - exists Queue.fresh. split; [|constructor].
    eapply refines_init; [done|done|lia].
  - destruct (refines_exec b q o R Hwf) as [R' _].
    destruct (exec_static o b) as (_ & HM & _).
    eexists. split; [done|]. rewrite HM. by apply sized_exec.
  - exists (Queue.mk (Queue.frames q) (Queue.held q) (Queue.pushes q) 0).
    split; [|done]. constructor; try apply R. done.
Qed.

End Pending.

Section BufferUse.
Context {B : Build}.
Import FrameBuffer.

(** X1 (frames fit). In every state a buffer reaches, the frames waiting
    are as many as [available()] says and at most [capacity()]; each has a
    size between 1 and [max_frame_size()], exactly that many bytes, and a
    timestamp; every slot keeps a region of [max_frame_size()] bytes, and an
    occupied slot a size within it. *)
Theorem pending_frames_fit b :
  reachable b →
  Z.of_nat (length (pending b)) = available b
  ∧ available b ≤ capacity b
  ∧ (∀ x, x ∈ pending b →
       0 < x.1.2 ≤ max_frame_size b ∧ Z.of_nat (length x.1.1) = x.1.2 ∧ is_Some x.2)
  ∧ Z.of_nat (length (slots_ b)) = capacity b
  ∧ (∀ i s, slots_ b !! i = Some s →
       Z.of_nat (length (slot_data s)) = max_frame_size b
       ∧ slot_capacity s = max_frame_size b
       ∧ (slot_occupied s = true → 0 < slot_size s ≤ max_frame_size b)).
Proof.
  intros Hb. destruct (reachable_sized b Hb) as (q & R & Hs).
  unfold available, capacity, max_frame_size.
  rewrite (pending_refines b q R). unfold untagged.
  split_and!.
  - rewrite !length_fmap. symmetry. apply R.
  - apply R.
  - intros x Hx. apply list_elem_of_fmap in Hx as (f & -> & Hf).
    apply list_elem_of_fmap in Hf as (nf & -> & Hnf).
    unfold sized in Hs. rewrite Forall_forall in Hs.
    destruct (Hs nf Hnf) as [? ?]. simpl. split_and!; [lia|lia|done|by eexists].
  - apply R.
  - intros i s Hi. destruct (ref_regions _ _ R i s Hi) as [? ?].
    split_and!; [done|done|]. intros Hocc.
    destruct (refines_slot b q i s R Hi) as [(k & nf & Hk & _ & Hst & _)|[Hfree _]].
    + destruct Hst as (_ & -> & _). unfold sized in Hs. rewrite Forall_forall in Hs.
      apply Hs. by eapply list_elem_of_lookup_2.
    + congruence.
Qed.

(** X2 (push). A valid push on a buffer in any state it reaches returns
    [true]. With room, the frame is appended to the waiting frames and
    nothing is dropped. On a full buffer whose oldest slot is not being read,
    the oldest waiting frame is replaced by the new one at the end, and the
    drop counter goes up by one (modulo [2^32]). On a full buffer whose oldest
    slot is being read, the waiting frames stay and the drop counter goes up
    by one. *)
Theorem push_pending b src size ts :
  reachable b → 0 < size ≤ max_frame_size b → size ≤ Z.of_nat (length src) →
  let r := push b (Some src) size ts in
  let reading := slot_reading (slot_at (slots_ b) (read_idx_ b)) in
  r.2 = true
  ∧ (available b < capacity b →
       pending r.1 = pending b ++ [pushed_frame src size ts]
       ∧ available r.1 = available b + 1
       ∧ frames_dropped r.1 = frames_dropped b)
  ∧ (available b = capacity b → reading = false →
       pending r.1 = tail (pending b) ++ [pushed_frame src size ts]
       ∧ available r.1 = available b
       ∧ frames_dropped r.1 = uint32_t (frames_dropped b + 1))
  ∧ (available b = capacity b → reading = true →
       pending r.1 = pending b
       ∧ available r.1 = available b
       ∧ frames_dropped r.1 = uint32_t (frames_dropped b + 1)).
Proof.
  intros Hb Hsize Hsrc r reading.
  unfold available, capacity, max_frame_size, frames_dropped in *.
  destruct (reachable_refines b Hb) as (q & R & _).
  destruct (refines_exec b q (Push (Some src) size ts) R) as [R' Hv]; [simpl; lia|].
  assert (H1 : (exec (Push (Some src) size ts) b).1 = r.1).
  { simpl. unfold r. by destruct (push b (Some src) size ts). }
  assert (H2 : view (exec (Push (Some src) size ts) b) = Queue.Pushed r.2).
  { unfold view. simpl. unfold r. by destruct (push b (Some src) size ts). }
  rewrite H1 in R'. rewrite H2 in Hv. clear H1 H2.
  simpl in R', Hv. unfold Queue.push in R', Hv.
  rewrite eqb_false, gtb_false in R', Hv by lia. simpl in R', Hv.
  pose proof (ref_count _ _ R) as Hc. pose proof (ref_slots _ _ R) as HN.
  pose proof (ref_dropped _ _ R) as [_ Hd].
  pose proof (ref_count _ _ R') as Hc'. pose proof (ref_dropped _ _ R') as [_ Hd'].
  rewrite (pending_refines _ _ R'), (pending_refines _ _ R).
  unfold untagged.
  destruct (Z.ltb_spec (Z.of_nat (length (Queue.frames q))) (num_slots_ b))
    as [Hroom|Hfull]; simpl in *.
  { split_and!; [congruence| |intros; lia|intros; lia].
    intros _. rewrite !fmap_app. split_and!; [done| |congruence].
    rewrite Hc', length_app. simpl. lia. }
  destruct (Queue.frames q) as [|nf rest] eqn:Hq; [simpl in *; lia|].
  destruct (refines_read_slot _ _ _ _ R Hq) as (s0 & _ & Hat & _ & Hrd).
  unfold reading. rewrite Hat, Hrd.
  destruct (Queue.held q); simpl in *.
  - split_and!; [congruence|intros; lia|done|].
    intros _ _. split_and!; [done|lia|]. by rewrite Hd', Hd, uint32_succ.
  - split_and!; [congruence|intros; lia| |done].
    intros _ _. rewrite !fmap_app. split_and!; [done| |by rewrite Hd', Hd, uint32_succ].
    rewrite Hc', length_app. simpl. lia.
Qed.

(** X3 (pop). In any state a buffer reaches, [pop] removes exactly the
    oldest waiting frame, keeps the drop counter, and leaves the slot at the
    read index not marked as being read; on an empty buffer it changes
    nothing. *)
Theorem pop_pending b :
  reachable b →
  pending (pop b) = tail (pending b)
  ∧ available (pop b) = Z.max 0 (available b - 1)
  ∧ frames_dropped (pop b) = frames_dropped b
  ∧ slot_reading (slot_at (slots_ (pop b)) (read_idx_ (pop b))) = false
  ∧ (available b = 0 → pop b = b).
Proof.
  unfold available, frames_dropped. intros Hb.
  destruct (reachable_refines b Hb) as (q & R & _).
  pose proof (refines_pop b q R) as R'.
  pose proof (ref_count _ _ R) as Hc. pose proof (ref_count _ _ R') as Hc'.
  pose proof (ref_dropped _ _ R) as [_ Hd]. pose proof (ref_dropped _ _ R') as [_ Hd'].
  rewrite (pending_refines _ _ R'), (pending_refines _ _ R). unfold untagged.
  assert (Hfr : Queue.frames (Queue.pop q) = tail (Queue.frames q)
                ∧ Queue.dropped (Queue.pop q) = Queue.dropped q
                ∧ Queue.held (Queue.pop q) = false).
  { unfold Queue.pop. destruct (Queue.frames q) eqn:E; simpl; [|done].
    rewrite E. split_and!; [done|done|].
    destruct (Queue.held q) eqn:Hh; [|done]. by apply (ref_held _ _ R) in Hh. }
  destruct Hfr as (Hfr & Hdr & Hheld).
  split_and!.
  - by rewrite Hfr, <- !fmap_tail.
  - rewrite Hc', Hc, Hfr. destruct (Queue.frames q); simpl; lia.
  - by rewrite Hd', Hd, Hdr.
  - destruct (Queue.frames (Queue.pop q)) as [|nf rest] eqn:Hq.
    + destruct (ref_free _ _ R' 0) as (s & Hs & _ & Hrd).
      { pose proof (ref_slots _ _ R'). simpl in *. lia. }
      rewrite ring_index_0 in Hs by apply R'.
      by rewrite (slot_at_lookup _ _ _ Hs).
    + destruct (refines_read_slot _ _ _ _ R' Hq) as (s & _ & -> & _ & ->). done.
  - intros Hz. unfold pop. rewrite (ref_initialized _ _ R), gtb_false by lia. done.
Qed.


End BufferUse.

Section BufferLife.
Context {B : Build}.
Import FrameBuffer.

Lemma alloc_loop_ok h p M todo : ∀ i l,
  (alloc_loop h p M i todo l).2 = true
  ↔ ∀ j, (i ≤ j < i + todo)%nat → is_Some (malloc h (ESP_PLATFORM && p) j).
Proof.
  induction todo as [|todo IH]; intros i l; simpl.
  { split; [intros _ j Hj; lia|done]. }
  destruct (malloc h (ESP_PLATFORM && p) i) as [g|] eqn:Hm.
  - rewrite IH. split; intros H j Hj.
    + destruct (decide (j = i)) as [->|]; [by rewrite Hm|]. apply H. lia.
    + apply H. lia.
  - simpl. split; [done|]. intros H. destruct (H i) as [x Hx]; [lia|]. congruence.
Qed.

Lemma alloc_loop_length h p M todo : ∀ i l,
  length (alloc_loop h p M i todo l).1 = length l.
Proof.
  induction todo as [|todo IH]; intros i l; simpl; [done|].
  destruct (malloc h (ESP_PLATFORM && p) i); [|done].
  by rewrite IH, length_insert.
Qed.

Lemma exec_mutex o b : mutex_ (exec o b).1 = mutex_ b.
Proof.
  destruct o; unfold exec, push, peek, pop, clear; simpl;
    repeat (case_match; simpl); by simplify_eq.
Qed.

Lemma reachable_mutex b : reachable b → mutex_ b = ESP_PLATFORM.
Proof.
  induction 1 as [b N M p h Hinit HN HM|b o _ IH Hwf|b _ IH].
  - unfold init in Hinit. simpl in Hinit.
    repeat case_match; simplify_eq; done.
  - by rewrite exec_mutex.
  - done.
Qed.

Lemma deinit_after_init N M p h :
  deinit (init empty_buffer N M p h).1 = empty_buffer.
Proof.
  unfold init, deinit, empty_buffer. simpl.
  repeat (case_match; simpl); done.
Qed.

(** X5 (clear and reset_stats). In any state a buffer reaches, [clear]
    leaves no frame waiting and no slot occupied or marked as being read, and
    keeps the drop counter, the capacity and the maximum frame size;
    [reset_stats] zeroes the drop counter and keeps the waiting frames. *)
Theorem clear_and_reset_stats b :
  reachable b →
  pending (clear b) = []
  ∧ available (clear b) = 0
  ∧ empty (clear b) = true
  ∧ frames_dropped (clear b) = frames_dropped b
  ∧ capacity (clear b) = capacity b
  ∧ max_frame_size (clear b) = max_frame_size b
  ∧ (∀ i s, slots_ (clear b) !! i = Some s →
       slot_occupied s = false ∧ slot_reading s = false)
  ∧ pending (reset_stats b) = pending b
  ∧ frames_dropped (reset_stats b) = 0
  ∧ available (reset_stats b) = available b.
Proof.
  intros Hb. destruct (reachable_refines b Hb) as (q & R & _).
  pose proof (refines_clear b q R) as R'.
  assert (R0 : Refines (reset_stats b)
                 (Queue.mk (Queue.frames q) (Queue.held q) (Queue.pushes q) 0)).
  { constructor; try apply R. done. }
  rewrite (pending_refines _ _ R'), (pending_refines _ _ R0), (pending_refines _ _ R).
  unfold available, empty, frames_dropped, capacity, max_frame_size, clear.
  rewrite (ref_initialized _ _ R). simpl.
  split_and!; try done.
  intros i s Hi. destruct (refines_slot _ _ i s R') as [(k & nf & Hk & _)|Hfree].
  - unfold clear. by rewrite (ref_initialized _ _ R).
  - simpl in Hk. by rewrite lookup_nil in Hk.
  - done.
Qed.

(** X6 (init succeeds exactly when it can allocate). [init] on a buffer
    as constructed returns [true] exactly when neither [num_slots] nor
    [max_frame_size] is zero, the slot array and the region of every slot are
    allocated and, on the ESP32, the mutex is created. It then reports the
    requested capacity and maximum frame size, no frame and no drop. *)
Theorem init_succeeds_iff N M psram h :
  let r := init empty_buffer N M psram h in
  (r.2 = true ↔
     N ≠ 0 ∧ M ≠ 0 ∧ new_nothrow h = true
     ∧ (∀ i, (i < Z.to_nat N)%nat → is_Some (malloc h (ESP_PLATFORM && psram) i))
     ∧ (ESP_PLATFORM = true → xSemaphoreCreateMutex h = true))
  ∧ (r.2 = true →
       is_initialized r.1 = true
       ∧ capacity r.1 = N ∧ max_frame_size r.1 = M
       ∧ available r.1 = 0 ∧ empty r.1 = true ∧ frames_dropped r.1 = 0
       ∧ length (slots_ r.1) = Z.to_nat N).
Proof.
  intros r. unfold r, init. simpl.
  destruct (Z.eqb_spec N 0) as [->|HN]; simpl.
  { split; [|done]. split; [done|]. by intros [? _]. }
  destruct (Z.eqb_spec M 0) as [->|HM]; simpl.
  { split; [|done]. split; [done|]. by intros (_ & ? & _). }
  destruct (new_nothrow h) eqn:Hnew; simpl.
  2:{ split; [|done]. split; [done|]. by intros (_ & _ & ? & _). }
  pose proof (alloc_loop_ok h psram M (Z.to_nat N) 0
                (replicate (Z.to_nat N) default_slot)) as Hok.
  pose proof (alloc_loop_length h psram M (Z.to_nat N) 0
                (replicate (Z.to_nat N) default_slot)) as Hlen.
  rewrite length_replicate in Hlen.
  destruct (alloc_loop _ _ _ _ _ _) as [slots ok]. simpl in Hok, Hlen.
  destruct ok; simpl.
  2:{ split; [|done]. split; [done|]. intros (_ & _ & _ & Hall & _).
      apply Hok. intros j Hj. apply Hall. lia. }
  destruct ESP_PLATFORM eqn:Hesp; simpl.
  - destruct (xSemaphoreCreateMutex h) eqn:Hmutex; simpl.
    + split; [|done]. split; [|done]. intros _. split_and!; try done.
      intros i Hi. apply Hok; [done|lia].
    + split; [|done]. split; [done|]. intros (_ & _ & _ & _ & Hm). by specialize (Hm eq_refl).
  - split; [|done]. split; [|done]. intros _. split_and!; try done.
    intros i Hi. apply Hok; [done|lia].
Qed.

(** X7 (failed init). When [init] on a buffer as constructed returns
    [false], the buffer is not initialised and holds no slot and no mutex.
    It is as constructed, except when the allocation of the slot array is what
    failed: then [capacity()] and [max_frame_size()] report the requested
    values. Every later [push] is rejected. *)
Theorem failed_init_releases N M psram h :
  let r := init empty_buffer N M psram h in
  r.2 = false →
  is_initialized r.1 = false ∧ slots_ r.1 = [] ∧ mutex_ r.1 = false
  ∧ available r.1 = 0 ∧ frames_dropped r.1 = 0
  ∧ (N = 0 ∨ M = 0 ∨ new_nothrow h = true → r.1 = empty_buffer)
  ∧ (N ≠ 0 → M ≠ 0 → new_nothrow h = false →
       r.1 = mk [] N M 0 0 0 0 false false)
  ∧ (∀ data size ts, push r.1 data size ts = (r.1, false)).
Proof.
  intros r. unfold r, init. simpl.
  destruct (Z.eqb_spec N 0) as [->|HN]; simpl.
  { intros _. split_and!; done. }
  destruct (Z.eqb_spec M 0) as [->|HM]; simpl.
  { intros _. split_and!; done. }
  destruct (new_nothrow h) eqn:Hnew; simpl.
  2:{ intros _. split_and!; try done. intros [?|[?|?]]; done. }
  destruct (alloc_loop _ _ _ _ _ _) as [slots ok].
  destruct ok; simpl.
  2:{ intros _. unfold deinit. simpl. destruct ESP_PLATFORM; split_and!; done. }
  destruct ESP_PLATFORM eqn:Hesp; simpl; [|done].
  destruct (xSemaphoreCreateMutex h); simpl; [done|].
  intros _. unfold deinit. rewrite Hesp. split_and!; done.
Qed.

(** X8 (deinit). [deinit] returns a buffer to the state of a constructed
    one, from any state the buffer reaches after a successful [init] and
    after an [init] that failed; so a later [init] behaves as the first one
    on a new buffer. *)
Theorem deinit_restores_constructed b :
  reachable b ∨ (∃ N M psram h, b = (init empty_buffer N M psram h).1) →
  deinit b = empty_buffer
  ∧ ∀ N M psram h, init (deinit b) N M psram h = init empty_buffer N M psram h.
Proof.
  intros Hb. assert (Hd : deinit b = empty_buffer).
  { destruct Hb as [Hb|(N & M & p & h & ->)]; [|apply deinit_after_init].
    apply reachable_mutex in Hb. unfold deinit, empty_buffer. rewrite Hb.
    by destruct ESP_PLATFORM. }
  split; [done|]. intros. by rewrite Hd.
Qed.

(** X22 (status queries). In any state a buffer reaches, [empty()] holds
    exactly when no frame is waiting and [full()] exactly when as many frames
    wait as the capacity, never both; the capacity and the maximum frame size
    are positive, and the drop counter is a 32-bit value. *)
Theorem status_queries_agree b :
  reachable b →
  (empty b = true ↔ pending b = [])
  ∧ (full b = true ↔ Z.of_nat (length (pending b)) = capacity b)
  ∧ (empty b = true → full b = false)
  ∧ is_initialized b = true
  ∧ 0 < capacity b
  ∧ 0 < max_frame_size b
  ∧ 0 ≤ frames_dropped b < 2 ^ 32.
Proof.
  intros Hb. destruct (reachable_refines b Hb) as (q & R & _).
  rewrite (pending_refines _ _ R). unfold untagged.
  unfold empty, full, capacity, max_frame_size, is_initialized, frames_dropped.
  rewrite (ref_initialized _ _ R), !length_fmap. simpl.
  pose proof (ref_count _ _ R) as Hc. pose proof (ref_bounded _ _ R) as Hbd.
  pose proof (ref_slots _ _ R) as HN. pose proof (ref_max _ _ R) as HM.
  destruct (ref_dropped _ _ R) as [_ Hd].
  split; [|split; [|split; [|split; [done|split; [lia|split; [lia|]]]]]].
  - rewrite Z.eqb_eq, Hc. destruct (Queue.frames q); simpl; [done|].
    split; [lia|done].
  - rewrite <- Hc. destruct (Z.geb_spec (count_ b) (num_slots_ b)); split; (done || lia).
  - rewrite Z.eqb_eq. intros Hz. apply geb_false. lia.
  - rewrite Hd. unfold uint32_t, wrap. apply Z.mod_pos_bound. lia.
Qed.

End BufferLife.

(** ** The life cycle and the consumer side of the service *)

Section ServiceLife.
Context {B : Build}.
Import StreamingService.


(** X9 (set_target_fps). A rate from 1 to 30 becomes the target rate and
    sets the frame interval to [1000000 / fps] microseconds, rounded down,
    which lies between 33333 and 1000000; any other rate changes nothing.
    In both cases the buffer, the counters and the rest of the configuration
    stay as they are. *)
Theorem set_target_fps_range s fps :
  let s' := set_target_fps s fps in
  (1 ≤ fps ≤ 30 →
     get_target_fps s' = fps
     ∧ frame_interval_us_ s' = 1000000 ÷ fps
     ∧ 33333 ≤ frame_interval_us_ s' ≤ 1000000
     ∧ frame_interval_us_ s' * fps ≤ 1000000 < (frame_interval_us_ s' + 1) * fps)
  ∧ (fps < 1 ∨ 30 < fps → s' = s)
  ∧ buffer_ s' = buffer_ s ∧ stats_ s' = stats_ s
  ∧ initialized_ s' = initialized_ s ∧ stop_requested_ s' = stop_requested_ s
  ∧ buffer_slots (config_ s') = buffer_slots (config_ s)
  ∧ max_frame_size (config_ s') = max_frame_size (config_ s)
  ∧ consumer_timeout_ms (config_ s') = consumer_timeout_ms (config_ s).
Proof.
  intros s'. unfold s', set_target_fps, get_target_fps.
  destruct (Z_lt_dec fps 1) as [Hlow|Hpos].
  { rewrite gtb_false by lia. simpl. split_and!; try done. lia. }
  destruct (Z_lt_dec 30 fps) as [Hhigh|Hle].
  { rewrite gtb_true by lia. replace (fps <=? 30) with false by (symmetry; apply Z.leb_gt; lia).
    simpl. split_and!; try done. lia. }
  rewrite gtb_true by lia. replace (fps <=? 30) with true by (symmetry; apply Z.leb_le; lia).
  simpl. split_and!; try done; [|lia].
  intros _. rewrite Z.quot_div_nonneg by lia.
  pose proof (Z.mul_div_le 1000000 fps). pose proof (Z.mul_succ_div_gt 1000000 fps).
  split_and!; try done; nia.
Qed.


(** X11 (deinit, then init). [deinit] of an initialised service leaves it
    not initialised, not running, with the stop request raised and the buffer
    as constructed; the counters survive. A second [deinit], [start] and
    [get_frame] then do nothing. An [init] after it takes the new
    configuration, and succeeds exactly when it would on a new service. *)
Theorem deinit_then_init s config h :
  is_initialized s = true → reachable (buffer_ s) → target_fps config ≠ 0 →
  let d := deinit s in
  is_initialized d = false ∧ is_running d = false ∧ stop_requested_ d = true
  ∧ buffer_ d = FrameBuffer.empty_buffer
  ∧ frames_captured (stats_ d) = frames_captured (stats_ s)
  ∧ frames_sent (stats_ d) = frames_sent (stats_ s)
  ∧ frames_dropped (stats_ d) = frames_dropped (stats_ s)
  ∧ capture_errors (stats_ d) = capture_errors (stats_ s)
  ∧ deinit d = d
  ∧ (∀ task_created, start d task_created = (d, false))
  ∧ get_frame_nowait d true true = (d, None)
  ∧ ∃ s1 s0 ok,
      init d config h = Returns (s1, ok)
      ∧ init constructed config h = Returns (s0, ok)
      ∧ is_initialized s1 = ok
      ∧ buffer_ s1 = buffer_ s0
      ∧ config_ s1 = config
      ∧ frame_interval_us_ s1 = 1000000 ÷ target_fps config.
Proof.
  intros Hi Hb Hfps d. unfold is_initialized, is_running in *.
  assert (Hbuf : buffer_ d = FrameBuffer.empty_buffer).
  { unfold d, deinit. rewrite Hi. simpl. apply reachable_mutex in Hb.
    unfold FrameBuffer.deinit, FrameBuffer.empty_buffer. rewrite Hb.
    by destruct ESP_PLATFORM. }
  assert (Hd : initialized_ d = false).
  { unfold d, deinit. by rewrite Hi. }
  split_and!; try by (unfold d, deinit; rewrite Hi).
  - done.
  - unfold init. rewrite Hd, Hbuf, eqb_false by done. simpl.
    destruct (FrameBuffer.init FrameBuffer.empty_buffer (buffer_slots config)
                (max_frame_size config) true h) as [buf ok].
    destruct ok; simpl.
    + destruct (ESP_PLATFORM && negb (xSemaphoreCreateBinary h)); simpl;
        by eexists _, _, _.
    + by eexists _, _, _.
Qed.


Lemma buffer_init_flag N M p h :
  FrameBuffer.initialized_ (FrameBuffer.init FrameBuffer.empty_buffer N M p h).1
  = (FrameBuffer.init FrameBuffer.empty_buffer N M p h).2
  ∧ ((FrameBuffer.init FrameBuffer.empty_buffer N M p h).2 = false →
     FrameBuffer.slots_ (FrameBuffer.init FrameBuffer.empty_buffer N M p h).1 = []).
Proof.
  unfold FrameBuffer.init, FrameBuffer.deinit. simpl.
  repeat (case_match; simpl); done.
Qed.

(** X21 (the outcome of init). With a rate other than zero, [init] on a
    service as constructed returns [true] exactly when the buffer can be
    initialised and, on the ESP32, the semaphore created. The configuration
    and the frame interval are stored in both cases. After success the
    buffer has the configured capacity and maximum frame size and no frame;
    after failure the service and the buffer are not initialised and the
    buffer holds no slot. *)
Theorem service_init_outcome config h :
  target_fps config ≠ 0 →
  ∃ s' ok,
    init constructed config h = Returns (s', ok)
    ∧ (ok = true ↔
         (FrameBuffer.init FrameBuffer.empty_buffer (buffer_slots config)
            (max_frame_size config) true h).2 = true
         ∧ (ESP_PLATFORM = true → xSemaphoreCreateBinary h = true))
    ∧ is_initialized s' = ok
    ∧ FrameBuffer.is_initialized (buffer_ s') = ok
    ∧ config_ s' = config
    ∧ frame_interval_us_ s' = 1000000 ÷ target_fps config
    ∧ stats_ s' = stats_ constructed
    ∧ (ok = true →
         0 < buffer_slots config < 2 ^ SIZE_BITS →
         0 < max_frame_size config < 2 ^ SIZE_BITS →
         reachable (buffer_ s')
         ∧ FrameBuffer.capacity (buffer_ s') = buffer_slots config
         ∧ FrameBuffer.max_frame_size (buffer_ s') = max_frame_size config
         ∧ buffered_frames s' = 0
         ∧ pending (buffer_ s') = [])
    ∧ (ok = false → FrameBuffer.slots_ (buffer_ s') = []).
Proof.
  intros Hfps. unfold init, is_initialized, FrameBuffer.is_initialized, buffered_frames.
  simpl. rewrite eqb_false by done.
  destruct (buffer_init_flag (buffer_slots config) (max_frame_size config) true h)
    as [Hflag Hslots].
  destruct (FrameBuffer.init FrameBuffer.empty_buffer (buffer_slots config)
              (max_frame_size config) true h) as [buf ok] eqn:Hinit.
  simpl in Hflag, Hslots. destruct ok; simpl.
  - destruct ESP_PLATFORM eqn:Hesp; simpl.
    + destruct (xSemaphoreCreateBinary h) eqn:Hsem; simpl.
      * eexists _, _. split; [done|]. simpl.
        split_and!; try done.
        intros _ HN HM.
        assert (Hb : reachable buf) by (by eapply reach_init).
        destruct (refines_init _ _ _ _ _ Hinit) as (R & HN' & HM'); [lia..|].
        split_and!; try done.
        -- unfold FrameBuffer.available. by rewrite (ref_count _ _ R).
        -- by rewrite (pending_refines _ _ R).
      * eexists _, _. split; [done|]. simpl. unfold FrameBuffer.deinit. rewrite Hesp.
        split_and!; try done. intuition congruence.
    + eexists _, _. split; [done|]. simpl.
      split_and!; try done.
      intros _ HN HM.
      assert (Hb : reachable buf) by (by eapply reach_init).
      destruct (refines_init _ _ _ _ _ Hinit) as (R & HN' & HM'); [lia..|].
      split_and!; try done.
      -- unfold FrameBuffer.available. by rewrite (ref_count _ _ R).
      -- by rewrite (pending_refines _ _ R).
  - eexists _, _. split; [done|]. simpl.
    split_and!; try done. intuition congruence.
Qed.

End ServiceLife.

(** ** The passes of the producer *)

Section ProducerPasses.
Context {B : Build}.
Context {W : Type} {clock_ : interfaces.IClock W} {camera_ : interfaces.ICamera W}.
Import StreamingService.

Lemma push_accepts b data size ts :
  FrameBuffer.initialized_ b = true → FrameBuffer.is_null data = false →
  0 < size ≤ FrameBuffer.max_frame_size_ b →
  (FrameBuffer.push b data size ts).2 = true.
Proof.
  intros Hi Hd Hs. unfold FrameBuffer.push.
  rewrite Hi, Hd, eqb_false, gtb_false by lia. simpl.
  by destruct (_ && _).
Qed.

Lemma push_rejects b data size ts :
  FrameBuffer.initialized_ b = false ∨ size > FrameBuffer.max_frame_size_ b →
  FrameBuffer.push b data size ts = (b, false).
Proof.
  unfold FrameBuffer.push. intros [->|Hbig]; [done|].
  rewrite (gtb_true size) by lia. by destruct (_ || _).
Qed.

Lemma pass_keeps_refl s : pass_keeps s s.
Proof. unfold pass_keeps. split_and!; done || lia. Qed.

Lemma pass_keeps_trans s1 s2 s3 : pass_keeps s1 s2 → pass_keeps s2 s3 → pass_keeps s1 s3.
Proof.
  unfold pass_keeps. intros (?&?&?&?&?&?&?&?&?&?) (?&?&?&?&?&?&?&?&?&?).
  split_and!; try congruence. lia.
Qed.

Lemma iteration_keeps s w next : pass_keeps s (pass_service (producer_iteration s w next)).
Proof.
  unfold producer_iteration.
  destruct (interfaces.now_us w) as [now0 w0].
  destruct (now0 <? next); [apply pass_keeps_refl|].
  destruct (interfaces.capture_frame w0) as [frame w1].
  destruct (interfaces.valid frame).
  - destruct (exec_static (Push (interfaces.data frame) (interfaces.size frame)
                             (interfaces.timestamp_us frame)) (buffer_ s))
      as (HN & HM & HI).
    simpl in HN, HM, HI.
    destruct (FrameBuffer.push _ _ _ _) as [buf pushed]. simpl in HN, HM, HI.
    destruct pushed; simpl.
    + destruct (interfaces.now_us (interfaces.release_frame w1)) as [now1 w2]. simpl.
      unfold pass_keeps, FrameBuffer.capacity, FrameBuffer.max_frame_size,
        FrameBuffer.is_initialized. simpl.
      split_and!; try done.
      destruct (Z.gtb_spec (FrameBuffer.frames_dropped buf) (frames_dropped (stats_ s))); lia.
    + destruct (interfaces.now_us (interfaces.release_frame w1)) as [now1 w2]. simpl.
      unfold pass_keeps, FrameBuffer.capacity, FrameBuffer.max_frame_size,
        FrameBuffer.is_initialized. simpl.
      split_and!; done || lia.
  - destruct (interfaces.now_us (interfaces.release_frame w1)) as [now1 w2]. simpl.
    unfold pass_keeps. simpl. split_and!; done || lia.
Qed.

Lemma passes_keep n : ∀ s w next now,
  pass_keeps s (pass_service (producer_passes n s w next now)).
Proof.
  induction n as [|n IH]; intros s w next now; simpl; [apply pass_keeps_refl|].
  eapply pass_keeps_trans; [apply (iteration_keeps s w next)|apply IH].
Qed.

(** X13 (what a capture pass counts). A pass of the producer whose
    capture time has come counts exactly one of three outcomes. An invalid
    frame counts one capture error and leaves the buffer alone. A valid
    frame that the buffer accepts counts one captured frame, and the drop
    counter of the service becomes the larger of itself and the buffer's.
    A valid frame larger than the maximum frame size, or on a buffer that is
    not initialised, is lost: no counter and no buffered frame records it. *)
Theorem capture_pass_accounting s w next :
  let frame := (interfaces.capture_frame (interfaces.now_us w).2).1 in
  let p := producer_iteration s w next in
  let st := stats_ s in
  let st' := stats_ (pass_service p) in
  next ≤ (interfaces.now_us w).1 →
  frames_sent st' = frames_sent st
  ∧ (interfaces.valid frame = false →
       capture_errors st' = uint32_t (capture_errors st + 1)
       ∧ frames_captured st' = frames_captured st
       ∧ frames_dropped st' = frames_dropped st
       ∧ buffer_ (pass_service p) = buffer_ s)
  ∧ (interfaces.valid frame = true →
       FrameBuffer.is_initialized (buffer_ s) = true →
       interfaces.size frame ≤ FrameBuffer.max_frame_size (buffer_ s) →
       frames_captured st' = uint32_t (frames_captured st + 1)
       ∧ capture_errors st' = capture_errors st
       ∧ buffer_ (pass_service p)
         = (FrameBuffer.push (buffer_ s) (interfaces.data frame)
              (interfaces.size frame) (interfaces.timestamp_us frame)).1
       ∧ frames_dropped st'
         = Z.max (frames_dropped st)
             (FrameBuffer.frames_dropped (buffer_ (pass_service p))))
  ∧ (interfaces.valid frame = true →
       FrameBuffer.is_initialized (buffer_ s) = false
       ∨ interfaces.size frame > FrameBuffer.max_frame_size (buffer_ s) →
       stats_ (pass_service p) = stats_ s
       ∧ buffer_ (pass_service p) = buffer_ s).
Proof.
  intros frame p st st'. unfold st', st, p, frame, producer_iteration.
  unfold FrameBuffer.is_initialized, FrameBuffer.max_frame_size.
  destruct (interfaces.now_us w) as [now0 w0]. simpl.
  intros Hdue. rewrite (proj2 (Z.ltb_ge now0 next)) by lia.
  destruct (interfaces.capture_frame w0) as [fr w1]. simpl.
  destruct (interfaces.valid fr) eqn:Hvalid.
  - apply andb_prop in Hvalid as [Hdata Hsize].
    apply negb_true_iff in Hdata. apply Z.gtb_lt in Hsize.
    pose proof (push_accepts (buffer_ s) (interfaces.data fr) (interfaces.size fr)
                  (interfaces.timestamp_us fr)) as Hacc.
    pose proof (push_rejects (buffer_ s) (interfaces.data fr) (interfaces.size fr)
                  (interfaces.timestamp_us fr)) as Hrej.
    destruct (FrameBuffer.push _ _ _ _) as [buf pushed]. simpl in Hacc.
    destruct pushed; simpl.
    + destruct (interfaces.now_us (interfaces.release_frame w1)) as [now1 w2]. simpl.
      split_and!; try done.
      * intros _ _ _. split_and!; try done.
        destruct (Z.gtb_spec (FrameBuffer.frames_dropped buf) (frames_dropped (stats_ s)));
          lia.
      * intros _ Hcase. destruct Hcase as [Hi|Hbig]; [|].
        -- specialize (Hrej (or_introl Hi)). congruence.
        -- specialize (Hrej (or_intror Hbig)). congruence.
    + destruct (interfaces.now_us (interfaces.release_frame w1)) as [now1 w2]. simpl.
      split_and!; try done.
      * intros _ Hi Hfit. assert (false = true); [|done].
        apply Hacc; [done|done|lia].
      * intros _ Hcase. destruct Hcase as [Hi|Hbig].
        -- specialize (Hrej (or_introl Hi)). by simplify_eq.
        -- specialize (Hrej (or_intror Hbig)). by simplify_eq.
  - destruct (interfaces.now_us (interfaces.release_frame w1)) as [now1 w2]. simpl.
    split_and!; done.
Qed.

(** X14 (what the producer leaves alone). However many passes it makes,
    [producer_loop] never lowers the drop counter of the service, never
    changes the sent counter, the configuration, the frame interval, the
    stop request or the capacity and maximum frame size of the buffer, and
    leaves [producer_running] false when it returns. *)
Theorem producer_loop_keeps n s w :
  let s' := pass_service (producer_loop n s w) in
  frames_dropped (stats_ s) ≤ frames_dropped (stats_ s')
  ∧ frames_sent (stats_ s') = frames_sent (stats_ s)
  ∧ config_ s' = config_ s
  ∧ frame_interval_us_ s' = frame_interval_us_ s
  ∧ is_initialized s' = is_initialized s
  ∧ stop_requested_ s' = stop_requested_ s
  ∧ FrameBuffer.capacity (buffer_ s') = FrameBuffer.capacity (buffer_ s)
  ∧ FrameBuffer.max_frame_size (buffer_ s') = FrameBuffer.max_frame_size (buffer_ s)
  ∧ is_running s' = false.
Proof.
  intros s'. unfold s', producer_loop, is_initialized, is_running.
  destruct (interfaces.now_us w) as [now0 w0]. simpl.
  match goal with
  | |- context [producer_passes n ?s0 w0 now0 now0] =>
      destruct (passes_keep n s0 w0 now0 now0) as (?&?&?&?&?&?&?&?&?&?)
  end.
  simpl in *. split_and!; done.
Qed.

(** X15 (a pass before the capture time). When the clock has not reached
    the capture time, the pass captures nothing and leaves the service and
    the capture time as they are. It asks the clock for a delay of the whole
    milliseconds that remain, which never exceeds the time that remains, and
    for none at all in the last millisecond, where the loop polls the clock
    again at once. *)
Theorem early_pass_sleeps s w next :
  let now0 := (interfaces.now_us w).1 in
  let w0 := (interfaces.now_us w).2 in
  let p := producer_iteration s w next in
  now0 < next → int64_range (next - now0) → (next - now0) ÷ 1000 < 2 ^ 32 →
  pass_service p = s
  ∧ pass_next_capture_time p = next
  ∧ pass_now p = now0
  ∧ (next - now0 < 1000 → pass_world p = w0)
  ∧ (1000 ≤ next - now0 →
       pass_world p = interfaces.delay_ms ((next - now0) ÷ 1000) w0
       ∧ 0 < (next - now0) ÷ 1000
       ∧ (next - now0) ÷ 1000 * 1000 ≤ next - now0).
Proof.
  intros now0 w0 p. unfold p, now0, w0, producer_iteration.
  destruct (interfaces.now_us w) as [t0 w1]. simpl.
  intros Hearly Hrange Hms.
  rewrite (proj2 (Z.ltb_lt t0 next)) by lia.
  rewrite (int64_t_in_range _ Hrange).
  rewrite Z.quot_div_nonneg in * by lia.
  pose proof (Z.mul_div_le (next - t0) 1000).
  pose proof (Z.mul_succ_div_gt (next - t0) 1000).
  split_and!; try done.
  - intros Hlast. rewrite gtb_false; [done|].
    rewrite Z.div_small by lia. lia.
  - intros Hfar. assert (0 < (next - t0) `div` 1000).
    { apply Z.div_str_pos. lia. }
    rewrite gtb_true by lia. unfold uint32_t. rewrite wrap_small by lia.
    split_and!; [done|lia|lia].
Qed.

End ProducerPasses.

(** ** The producer on the mock clock and camera *)

Section MockPass.
Context {B : Build}.
Import StreamingService.

Lemma pass_now_capture {W} {clock_ : interfaces.IClock W}
    {camera_ : interfaces.ICamera W} (s : t) (w : W) next :
  next ≤ (interfaces.now_us w).1 →
  pass_now (producer_iteration s w next)
  = (interfaces.now_us
       (interfaces.release_frame
          (interfaces.capture_frame (interfaces.now_us w).2).2)).1.
Proof.
  unfold producer_iteration.
  destruct (interfaces.now_us w) as [now0 w0]. simpl. intros Hdue.
  rewrite (proj2 (Z.ltb_ge now0 next)) by lia.
  destruct (interfaces.capture_frame w0) as [frame w1]. simpl.
  destruct (interfaces.valid frame).
  - destruct (FrameBuffer.push _ _ _ _) as [buf pushed].
    destruct pushed; by destruct (interfaces.now_us (interfaces.release_frame w1)).
  - by destruct (interfaces.now_us (interfaces.release_frame w1)).
Qed.

(** X16 (the mock clock in a capture pass). With the mocks of the unit
    tests and no signed overflow, the clock reading at the end of a capture
    pass is the reading at its start plus the automatic advance of the clock
    (when positive) plus the delay of the capture (when the camera delivers):
    the clock never goes backwards during the pass. *)
Theorem mock_pass_clock s (w : mocks.World) next :
  let p := producer_iteration (clock_:=mocks.MockClock) (camera_:=mocks.MockCamera)
             s w next in
  let t := mocks.current_time_us_ w in
  let a := Z.max 0 (mocks.auto_advance_us_ w) in
  let d := if mocks.initialized_ w && mocks.should_capture_succeed_ w
           then mocks.capture_delay_us w else 0 in
  next ≤ t → int64_range t → 0 ≤ d → int64_range (t + a + d) →
  pass_now p = t + a + d
  ∧ (@interfaces.now_us _ mocks.MockClock w).1 ≤ pass_now p.
Proof.
  intros p t a d Hdue Ht Hd Hr. unfold int64_range in *.
  assert (Hp : pass_now p = t + a + d); [|split; [done|rewrite Hp; simpl; lia]].
  unfold p. rewrite pass_now_capture by done.
  unfold t, a, d in *. clear p t a d.
  destruct w as [t a ini ok cnt custom d]. simpl in *.
  destruct (Z.gtb_spec a 0) as [Ha|Ha]; simpl;
    destruct ini, ok; simpl in *;
    rewrite ?(int64_t_in_range (t + a)) by (unfold int64_range; lia);
    rewrite ?int64_t_in_range by (unfold int64_range; lia); lia.
Qed.

End MockPass.

(** ** The camera driver and the Wi-Fi event handler *)

Section CameraDriver.
Import EspCameraDriver.

Lemma step_lent c d l :
  lent l = match current_fb_ d with Some _ => 1 | None => 0 end →
  (initialized_ d = false → current_fb_ d = None) →
  lent (step c (d, l)).2
  = match current_fb_ (step c (d, l)).1 with Some _ => 1 | None => 0 end
  ∧ (initialized_ (step c (d, l)).1 = false → current_fb_ (step c (d, l)).1 = None).
Proof.
  intros Hl Hi. destruct d as [cfg fb ini]. simpl in *.
  destruct ini; [clear Hi|rewrite (Hi eq_refl) in *; clear Hi];
    destruct c as [config ok| |got| |quality sensor|res sensor]; simpl;
    unfold init, deinit, capture_frame, release_frame, return_current,
      set_quality, set_resolution; simpl;
    repeat (case_match; simpl in *; simplify_eq); split; done || lia.
Qed.

Lemma steps_lent cs : ∀ d l,
  lent l = match current_fb_ d with Some _ => 1 | None => 0 end →
  (initialized_ d = false → current_fb_ d = None) →
  lent (steps cs (d, l)).2
  = match current_fb_ (steps cs (d, l)).1 with Some _ => 1 | None => 0 end
  ∧ (initialized_ (steps cs (d, l)).1 = false → current_fb_ (steps cs (d, l)).1 = None).
Proof.
  induction cs as [|c cs IH]; intros d l Hl Hi; [done|].
  change (steps (c :: cs) (d, l)) with (steps cs (step c (d, l))).
  destruct (step_lent c d l Hl Hi) as [Hl' Hi'].
  destruct (step c (d, l)) as [d' l']. by apply IH.
Qed.

(** X17 (one frame buffer at a time). Whatever calls are made on the
    driver and whatever the camera library answers, the driver holds at most
    one frame buffer of the library: the number of buffers obtained and not
    returned is one while [current_fb_] is set and zero otherwise, it is zero
    whenever the driver is not initialised, and it is zero right after
    [release_frame] and after [deinit]. *)
Theorem at_most_one_frame_lent cs :
  let start := (constructed, mkLibrary false 0) in
  let dl := steps cs start in
  lent dl.2 = match current_fb_ dl.1 with Some _ => 1 | None => 0 end
  ∧ 0 ≤ lent dl.2 ≤ 1
  ∧ (initialized_ dl.1 = false → lent dl.2 = 0)
  ∧ lent (steps (cs ++ [ReleaseFrame]) start).2 = 0
  ∧ lent (steps (cs ++ [Deinit]) start).2 = 0.
Proof.
  intros start dl.
  destruct (steps_lent cs constructed (mkLibrary false 0)) as [Hl Hi]; [done..|].
  fold start in Hl, Hi. fold dl in Hl, Hi.
  split; [done|]. split; [rewrite Hl; destruct (current_fb_ dl.1); lia|].
  split; [intros Hn; rewrite Hl, Hi; done|]. split.
  - unfold steps. rewrite foldl_app. simpl. fold (steps cs start). fold dl.
    destruct dl as [d l]. simpl in *. unfold release_frame, return_current.
    destruct (current_fb_ d); simpl; lia.
  - unfold steps. rewrite foldl_app. simpl. fold (steps cs start). fold dl.
    destruct dl as [d l]. simpl in *. unfold deinit, return_current.
    destruct (initialized_ d) eqn:Hini; simpl.
    + destruct (current_fb_ d); simpl; lia.
    + rewrite Hl, Hi; done.
Qed.

Lemma step_quality c d l :
  init_quality_ok c → 10 ≤ get_quality d ≤ 63 →
  10 ≤ get_quality (step c (d, l)).1 ≤ 63.
Proof.
  unfold get_quality. intros Hc Hq. destruct d as [cfg fb ini].
  destruct c as [config ok| |got| |quality sensor|res sensor]; simpl in *;
    unfold init, deinit, capture_frame, release_frame, return_current,
      set_quality, set_resolution; simpl.
  - by destruct ini, ok.
  - by destruct ini, fb.
  - by destruct ini, fb, got.
  - by destruct fb.
  - destruct ini; simpl; [|done].
    destruct (Z.ltb_spec quality 10); simpl; [done|].
    destruct (Z.gtb_spec quality 63); simpl; [done|].
    destruct sensor as [status|]; [|done].
    destruct (status =? 0); simpl; [lia|done].
  - destruct ini; simpl; [|done].
    destruct sensor as [status|]; [|done].
    by destruct (status =? 0).
Qed.

(** X20 (the quality stays in range). [set_quality] stores a quality only
    when it lies between 10 and 63, so [get_quality()] stays in that range
    through any calls as long as no [init] is handed a quality outside it;
    [init] itself stores the quality of its configuration unchecked, also when
    it fails. *)
Theorem quality_stays_in_range cs l :
  Forall init_quality_ok cs →
  10 ≤ get_quality (steps cs (constructed, l)).1 ≤ 63
  ∧ ∀ config esp_ok,
      get_quality (init constructed l config esp_ok).1.1 = jpeg_quality config.
Proof.
  intros Hcs. split.
  - assert (Hgen : ∀ dl, 10 ≤ get_quality dl.1 ≤ 63 →
                         10 ≤ get_quality (steps cs dl).1 ≤ 63).
    { induction Hcs as [|c cs Hc _ IH]; intros [d l'] Hq; [done|].
      change (steps (c :: cs) (d, l')) with (steps cs (step c (d, l'))).
      apply IH. by apply step_quality. }
    apply Hgen. simpl. unfold get_quality. simpl. lia.
  - intros config esp_ok. unfold init, get_quality. simpl. by destruct esp_ok.
Qed.

End CameraDriver.

Section WiFi.
Import WiFiManager.
Context {idf : EspIdf}.

Lemma handler_bound s e starts ips :
  0 ≤ retry_count_ s ≤ 5 →
  starts ≤ connects s ≤ starts + 5 * ips + retry_count_ s →
  let s' := wifi_event_handler s e.1 e.2 in
  let starts' := starts + (if is_start e then 1 else 0) in
  let ips' := ips + (if is_got_ip e then 1 else 0) in
  0 ≤ retry_count_ s' ≤ 5
  ∧ starts' ≤ connects s' ≤ starts' + 5 * ips' + retry_count_ s'
  ∧ ∀ n, Z.testbit (event_group_ s) n = true → Z.testbit (event_group_ s') n = true.
Proof.
  intros Hr Hc. destruct e as [base id]. unfold wifi_event_handler, is_start, is_got_ip.
  simpl. destruct base; simpl.
  - destruct (Z.eqb_spec id WIFI_EVENT_STA_START) as [->|Hne]; simpl.
    { split_and!; done || lia. }
    destruct (id =? WIFI_EVENT_STA_DISCONNECTED); simpl; [|split_and!; done || lia].
    destruct (Z.ltb_spec (retry_count_ s) 5); simpl.
    + assert (wrap_signed 32 (retry_count_ s + 1) = retry_count_ s + 1) as ->.
      { unfold wrap_signed. rewrite Z.mod_small; lia. }
      split_and!; done || lia.
    + split_and!; try lia.
      intros n Hn. by rewrite Z.lor_spec, Hn.
  - destruct (id =? IP_EVENT_STA_GOT_IP); simpl.
    + split_and!; try lia. intros n Hn. by rewrite Z.lor_spec, Hn.
    + split_and!; done || lia.
  - split_and!; done || lia.
Qed.

Lemma how_many_cons f e es :
  how_many f (e :: es) = (if f e then 1 else 0) + how_many f es.
Proof.
  unfold how_many. rewrite filter_cons.
  destruct (decide (f e = true)) as [->|Hn]; simpl; [lia|].
  destruct (f e); [done|lia].
Qed.

Lemma handle_all_bound events : ∀ s starts ips,
  0 ≤ retry_count_ s ≤ 5 →
  starts ≤ connects s ≤ starts + 5 * ips + retry_count_ s →
  let s' := handle_all events s in
  let starts' := starts + how_many is_start events in
  let ips' := ips + how_many is_got_ip events in
  0 ≤ retry_count_ s' ≤ 5
  ∧ starts' ≤ connects s' ≤ starts' + 5 * ips' + retry_count_ s'
  ∧ ∀ n, Z.testbit (event_group_ s) n = true → Z.testbit (event_group_ s') n = true.
Proof.
  induction events as [|e es IH]; intros s starts ips Hr Hc; simpl.
  { unfold how_many. simpl. split_and!; done || lia. }
  destruct (handler_bound s e starts ips Hr Hc) as (Hr1 & Hc1 & Hb1).
  destruct (IH _ _ _ Hr1 Hc1) as (Hr2 & Hc2 & Hb2).
  rewrite !how_many_cons.
  unfold handle_all in *. simpl in *.
  split_and!; try lia. intros n Hn. by apply Hb2, Hb1.
Qed.

(** X18 (retries are bounded). Whatever events arrive, the retry counter
    stays between 0 and 5, and the handler calls [esp_wifi_connect] at least
    once per station start and at most five more times per obtained address
    and five for the first connection. *)
Theorem retries_are_bounded events :
  let s := handle_all events constructed in
  0 ≤ retry_count_ s ≤ 5
  ∧ how_many is_start events ≤ connects s
  ∧ connects s ≤ how_many is_start events + 5 * how_many is_got_ip events + retry_count_ s
  ∧ connects s ≤ how_many is_start events + 5 * (how_many is_got_ip events + 1).
Proof.
  intros s.
  destruct (handle_all_bound events constructed 0 0) as (Hr & Hc & _);
    [simpl; lia..|].
  fold s in Hr, Hc. split_and!; lia.
Qed.

Lemma gives_up_stays events : ∀ s,
  retry_count_ s = 5 →
  Forall (λ e, is_start e = false ∧ is_got_ip e = false) events →
  connects (handle_all events s) = connects s
  ∧ retry_count_ (handle_all events s) = 5
  ∧ ∀ n, Z.testbit (event_group_ s) n = true →
         Z.testbit (event_group_ (handle_all events s)) n = true.
Proof.
  induction events as [|e es IH]; intros s Hr Hev; [done|].
  apply Forall_cons in Hev as [[Hs Hg] Hev].
  assert (H1 : connects (wifi_event_handler s e.1 e.2) = connects s
               ∧ retry_count_ (wifi_event_handler s e.1 e.2) = 5
               ∧ ∀ n, Z.testbit (event_group_ s) n = true →
                      Z.testbit (event_group_ (wifi_event_handler s e.1 e.2)) n = true).
  { destruct e as [base id]. unfold is_start, is_got_ip, wifi_event_handler in *.
    simpl in *. destruct base; simpl; rewrite ?Hs, ?Hg; try done.
    destruct (id =? WIFI_EVENT_STA_DISCONNECTED); [|done].
    rewrite Hr. simpl. split_and!; [done|done|].
    intros n Hn. by rewrite Z.lor_spec, Hn. }
  destruct H1 as (Hc1 & Hr1 & Hb1).
  destruct (IH _ Hr1 Hev) as (Hc2 & Hr2 & Hb2).
  unfold handle_all in *. simpl. split_and!; [congruence|done|].
  intros n Hn. by apply Hb2, Hb1.
Qed.

(** X19 (giving up). Once the retry counter has reached 5, and until a
    station start or an obtained address arrives, no event makes the handler
    call [esp_wifi_connect] again; the retry counter stays at 5, and a
    disconnection among the events leaves the bits of [FAIL_BIT] set in the
    event group. *)
Theorem gives_up_after_five s events :
  retry_count_ s = 5 →
  Forall (λ e, is_start e = false ∧ is_got_ip e = false) events →
  let s' := handle_all events s in
  connects s' = connects s
  ∧ retry_count_ s' = 5
  ∧ ((WIFI_EVENT, WIFI_EVENT_STA_DISCONNECTED) ∈ events →
     ∀ n, Z.testbit FAIL_BIT n = true → Z.testbit (event_group_ s') n = true).
Proof.
  intros Hr Hev s'. unfold s'.
  destruct (gives_up_stays events s Hr Hev) as (Hc & Hr' & _).
  split_and!; [done|done|]. clear Hc Hr' s'.
  revert s Hr Hev. induction events as [|e es IH]; intros s Hr Hev Hin.
  { by apply elem_of_nil in Hin. }
  apply Forall_cons in Hev as [[Hs Hg] Hev].
  destruct (gives_up_stays [e] s Hr) as (_ & Hr1 & _); [by repeat constructor|].
  apply elem_of_cons in Hin as [<-|Hin].
  - intros n Hn.
    destruct (gives_up_stays es (handle_all [(WIFI_EVENT, WIFI_EVENT_STA_DISCONNECTED)] s) Hr1 Hev)
      as (_ & _ & Hb).
    apply Hb. unfold handle_all, wifi_event_handler. simpl.
    rewrite eqb_false by (intros Heq; by apply sta_events_differ).
    rewrite Z.eqb_refl, Hr. simpl. rewrite Z.lor_spec, Hn. by rewrite orb_true_r.
  - by apply (IH (handle_all [e] s)).
Qed.

End WiFi.

(** ** The properties above on the inputs of the unit tests *)

Ltac fresh_buffer N M p :=
  apply (reach_init _ N M p plentiful); [reflexivity|simpl; lia|simpl; lia].

Ltac after_run N M p :=
  apply run_reachable; [fresh_buffer N M p|repeat constructor; simpl; lia].

Lemma pending_frames_fit_witness :
  let b := (run (B:=esp32) [push_test_frame 4 x11 1000; push_test_frame 8 x22 2000]
              (FrameBuffer.init (B:=esp32) FrameBuffer.empty_buffer 3 16 false plentiful).1).1 in
  Z.of_nat (length (pending (B:=esp32) b)) = FrameBuffer.available b
  ∧ FrameBuffer.available b ≤ FrameBuffer.capacity b.
Proof.
  intros b.
  destruct (pending_frames_fit (B:=esp32) b) as (Hlen & Hcap & _).
  - after_run 3 16 false.
  - split; [exact Hlen|exact Hcap].
Defined.

Lemma push_pending_witness :
  let b := (run (B:=esp32)
              [push_test_frame 4 x11 1000; push_test_frame 8 x22 2000;
               push_test_frame 12 x33 3000]
              (FrameBuffer.init (B:=esp32) FrameBuffer.empty_buffer 3 16 false plentiful).1).1 in
  let r := FrameBuffer.push (B:=esp32) b (Some (make_test_frame 16 x44)) 16 4000 in
  r.2 = true
  ∧ pending (B:=esp32) r.1
    = tail (pending (B:=esp32) b) ++ [pushed_frame (make_test_frame 16 x44) 16 4000]
  ∧ FrameBuffer.frames_dropped r.1 = uint32_t (FrameBuffer.frames_dropped b + 1).
Proof.
  intros b r.
  destruct (push_pending (B:=esp32) b (make_test_frame 16 x44) 16 4000)
    as (Hok & _ & Hfull & _).
  - after_run 3 16 false.
  - simpl. lia.
  - simpl. lia.
  - destruct Hfull as (Hp & _ & Hd); [reflexivity|reflexivity|].
    split_and!; [exact Hok|exact Hp|exact Hd].
Defined.

Lemma pop_pending_witness :
  let b := (run (B:=esp32) [push_test_frame 4 x11 1000; push_test_frame 8 x22 2000]
              (FrameBuffer.init (B:=esp32) FrameBuffer.empty_buffer 3 16 false plentiful).1).1 in
  pending (B:=esp32) (FrameBuffer.pop (B:=esp32) b) = tail (pending (B:=esp32) b)
  ∧ FrameBuffer.available (FrameBuffer.pop (B:=esp32) b)
    = Z.max 0 (FrameBuffer.available b - 1).
Proof.
  intros b.
  destruct (pop_pending (B:=esp32) b) as (Hp & Ha & _).
  - after_run 3 16 false.
  - split; [exact Hp|exact Ha].
Defined.


Lemma clear_and_reset_stats_witness :
  let b := (run (B:=esp32) [push_test_frame 4 x11 1000; push_test_frame 8 x22 2000]
              (FrameBuffer.init (B:=esp32) FrameBuffer.empty_buffer 1 16 false plentiful).1).1 in
  pending (B:=esp32) (FrameBuffer.clear b) = []
  ∧ FrameBuffer.frames_dropped (FrameBuffer.clear b) = FrameBuffer.frames_dropped b
  ∧ FrameBuffer.frames_dropped (FrameBuffer.reset_stats b) = 0.
Proof.
  intros b.
  destruct (clear_and_reset_stats (B:=esp32) b)
    as (Hp & _ & _ & Hd & _ & _ & _ & _ & Hz & _).
  - after_run 1 16 false.
  - split_and!; [exact Hp|exact Hd|exact Hz].
Defined.

Lemma status_queries_agree_witness :
  let b := (run (B:=esp32)
              [push_test_frame 4 x11 1000; push_test_frame 8 x22 2000;
               push_test_frame 12 x33 3000]
              (FrameBuffer.init (B:=esp32) FrameBuffer.empty_buffer 3 16 false plentiful).1).1 in
  Z.of_nat (length (pending (B:=esp32) b)) = FrameBuffer.capacity b
  ∧ 0 ≤ FrameBuffer.frames_dropped b < 2 ^ 32.
Proof.
  intros b.
  destruct (status_queries_agree (B:=esp32) b) as (_ & Hfull & _ & _ & _ & _ & Hd).
  - after_run 3 16 false.
  - split; [apply Hfull; reflexivity|exact Hd].
Defined.

Lemma init_succeeds_iff_witness :
  let r := FrameBuffer.init (B:=esp32) FrameBuffer.empty_buffer 3 16 true plentiful in
  r.2 = true ∧ FrameBuffer.capacity r.1 = 3 ∧ FrameBuffer.max_frame_size r.1 = 16.
Proof.
  intros r.
  destruct (init_succeeds_iff (B:=esp32) 3 16 true plentiful) as [Hiff Hpost].
  assert (Hok : r.2 = true).
  { apply Hiff. split_and!; [lia|lia|reflexivity| |reflexivity].
    intros i _. simpl. by eexists. }
  destruct (Hpost Hok) as (_ & Hc & Hm & _).
  split_and!; [exact Hok|exact Hc|exact Hm].
Defined.

Lemma failed_init_releases_witness :
  let exhausted := mkHeap false (λ _ _, None) true true in
  let r := FrameBuffer.init (B:=esp32) FrameBuffer.empty_buffer 3 16 true exhausted in
  FrameBuffer.is_initialized r.1 = false
  ∧ r.1 = FrameBuffer.mk [] 3 16 0 0 0 0 false false.
Proof.
  intros exhausted r.
  destruct (failed_init_releases (B:=esp32) 3 16 true exhausted)
    as (Hi & _ & _ & _ & _ & _ & Hkept & _); [reflexivity|].
  split; [exact Hi|]. apply Hkept; [lia|lia|reflexivity].
Defined.

Lemma deinit_restores_constructed_witness :
  let b := (run (B:=host64) [push_test_frame 4 x11 1000; Peek true true true]
              (FrameBuffer.init (B:=host64) FrameBuffer.empty_buffer 3 16 false plentiful).1).1 in
  FrameBuffer.deinit (B:=host64) b = FrameBuffer.empty_buffer.
Proof.
  intros b.
  destruct (deinit_restores_constructed (B:=host64) b) as [Hd _]; [|exact Hd].
  left. after_run 3 16 false.
Defined.

Lemma set_target_fps_range_witness :
  let s' := StreamingService.set_target_fps StreamingService.constructed 10 in
  StreamingService.get_target_fps s' = 10
  ∧ StreamingService.frame_interval_us_ s' = 1000000 ÷ 10
  ∧ StreamingService.set_target_fps StreamingService.constructed 31
    = StreamingService.constructed.
Proof.
  intros s'.
  destruct (set_target_fps_range StreamingService.constructed 10) as (Hin & _).
  destruct (set_target_fps_range StreamingService.constructed 31) as (_ & Hout & _).
  destruct Hin as (Hf & Hi & _); [lia|].
  split_and!; [exact Hf|exact Hi|]. apply Hout. right. lia.
Defined.


Lemma deinit_then_init_witness :
  let s := initialized_service (B:=esp32)
             (StreamingService.mkStreamingConfig 5 3 16 1000) plentiful in
  let d := StreamingService.deinit (B:=esp32) s in
  StreamingService.is_initialized d = false
  ∧ StreamingService.buffer_ d = FrameBuffer.empty_buffer
  ∧ ∃ s1, StreamingService.init (B:=esp32) d
            (StreamingService.mkStreamingConfig 10 2 32 50) plentiful
          = StreamingService.Returns (s1, true)
          ∧ StreamingService.get_target_fps s1 = 10.
Proof.
  intros s d.
  destruct (deinit_then_init (B:=esp32) s
              (StreamingService.mkStreamingConfig 10 2 32 50) plentiful)
    as (Hi & _ & _ & Hb & _ & _ & _ & _ & _ & _ & _ & s1 & s0 & ok & H1 & H0 & _ & _ & Hc & _).
  - reflexivity.
  - fresh_buffer 3 16 true.
  - simpl. lia.
  - split_and!; [exact Hi|exact Hb|].
    exists s1. assert (ok = true) as ->.
    { clear -H0. vm_compute in H0. by injection H0 as _ <-. }
    split; [exact H1|]. unfold StreamingService.get_target_fps. by rewrite Hc.
Defined.


Lemma service_init_outcome_witness :
  ∃ s', StreamingService.init (B:=esp32) StreamingService.constructed
          (StreamingService.mkStreamingConfig 5 3 16 1000) plentiful
        = StreamingService.Returns (s', true)
        ∧ FrameBuffer.capacity (StreamingService.buffer_ s') = 3
        ∧ StreamingService.frame_interval_us_ s' = 1000000 ÷ 5.
Proof.
  destruct (service_init_outcome (B:=esp32)
              (StreamingService.mkStreamingConfig 5 3 16 1000) plentiful)
    as (s' & ok & Hinit & Hiff & _ & _ & _ & Hint & _ & Hok & _); [simpl; lia|].
  assert (ok = true) as ->.
  { apply Hiff. split; reflexivity. }
  destruct Hok as (_ & Hc & _); [reflexivity|simpl; lia|simpl; lia|].
  exists s'. split_and!; [exact Hinit|exact Hc|exact Hint].
Defined.

Lemma capture_pass_accounting_witness :
  let s := initialized_service (B:=host64)
             (StreamingService.mkStreamingConfig 10 3 16 1000) plentiful in
  let w := mocks.mkWorld 1000000 10000 true true 0 (make_test_frame 8 x11) 250000 in
  let p := StreamingService.producer_iteration (B:=host64)
             (clock_:=mocks.MockClock) (camera_:=mocks.MockCamera) s w 1000000 in
  let oversized := mocks.mkWorld 1000000 10000 true true 0 (make_test_frame 17 x11) 0 in
  let q := StreamingService.producer_iteration (B:=host64)
             (clock_:=mocks.MockClock) (camera_:=mocks.MockCamera) s oversized 1000000 in
  StreamingService.frames_captured (StreamingService.stats_ (StreamingService.pass_service p))
  = uint32_t (StreamingService.frames_captured (StreamingService.stats_ s) + 1)
  ∧ StreamingService.stats_ (StreamingService.pass_service q) = StreamingService.stats_ s
  ∧ StreamingService.buffer_ (StreamingService.pass_service q) = StreamingService.buffer_ s.
Proof.
  intros s w p oversized q.
  destruct (capture_pass_accounting (B:=host64) (clock_:=mocks.MockClock)
              (camera_:=mocks.MockCamera) s w 1000000) as (_ & _ & Hvalid & _);
    [simpl; lia|].
  destruct (capture_pass_accounting (B:=host64) (clock_:=mocks.MockClock)
              (camera_:=mocks.MockCamera) s oversized 1000000) as (_ & _ & _ & Hlost);
    [simpl; lia|].
  destruct Hvalid as (Hc & _); [reflexivity|reflexivity|simpl; lia|].
  destruct Hlost as (Hs & Hb); [reflexivity|right; simpl; lia|].
  split_and!; [exact Hc|exact Hs|exact Hb].
Defined.

Lemma early_pass_sleeps_witness :
  let s := initialized_service (B:=host64)
             (StreamingService.mkStreamingConfig 10 3 16 1000) plentiful in
  let w := mocks.mkWorld 1000000 0 true true 0 [] 0 in
  let p := StreamingService.producer_iteration (B:=host64)
             (clock_:=mocks.MockClock) (camera_:=mocks.MockCamera) s w 1005500 in
  StreamingService.pass_service p = s
  ∧ StreamingService.pass_world p
    = interfaces.delay_ms (IClock:=mocks.MockClock) ((1005500 - 1000000) ÷ 1000) w.
Proof.
  intros s w p.
  destruct (early_pass_sleeps (B:=host64) (clock_:=mocks.MockClock)
              (camera_:=mocks.MockCamera) s w 1005500) as (Hs & _ & _ & _ & Hfar).
  - simpl. lia.
  - unfold int64_range. simpl. lia.
  - vm_compute. reflexivity.
  - destruct Hfar as (Hw & _); [simpl; lia|].
    split; [exact Hs|exact Hw].
Defined.

Lemma mock_pass_clock_witness :
  let s := initialized_service (B:=host64)
             (StreamingService.mkStreamingConfig 10 3 16 1000) plentiful in
  let w := mocks.mkWorld 1000000 10000 true true 0 (make_test_frame 8 x11) 250000 in
  let p := StreamingService.producer_iteration (B:=host64)
             (clock_:=mocks.MockClock) (camera_:=mocks.MockCamera) s w 1000000 in
  StreamingService.pass_now p = 1000000 + Z.max 0 10000 + 250000.
Proof.
  intros s w p.
  destruct (mock_pass_clock (B:=host64) s w 1000000) as [Hnow _].
  - simpl. lia.
  - unfold int64_range. simpl. lia.
  - simpl. lia.
  - unfold int64_range. simpl. lia.
  - exact Hnow.
Defined.

Lemma at_most_one_frame_lent_witness :
  let fb := EspCameraDriver.mk_fb (Some (make_test_frame 8 x11)) 8 640 480 1 500 in
  let cs := [EspCameraDriver.Init EspCameraDriver.default_camera_config true;
             EspCameraDriver.CaptureFrame (Some fb);
             EspCameraDriver.CaptureFrame (Some fb)] in
  let start := (EspCameraDriver.constructed, EspCameraDriver.mkLibrary false 0) in
  0 ≤ EspCameraDriver.lent (EspCameraDriver.steps cs start).2 ≤ 1
  ∧ EspCameraDriver.lent
      (EspCameraDriver.steps (cs ++ [EspCameraDriver.ReleaseFrame]) start).2 = 0.
Proof.
  intros fb cs start.
  destruct (at_most_one_frame_lent cs) as (_ & Hone & _ & Hrel & _).
  split; [exact Hone|exact Hrel].
Defined.

Lemma quality_stays_in_range_witness :
  let cs := [EspCameraDriver.Init EspCameraDriver.default_camera_config true;
             EspCameraDriver.SetQuality 64 (Some 0);
             EspCameraDriver.SetQuality 12 (Some 0);
             EspCameraDriver.SetQuality 9 (Some 0)] in
  10 ≤ EspCameraDriver.get_quality
         (EspCameraDriver.steps cs
            (EspCameraDriver.constructed, EspCameraDriver.mkLibrary false 0)).1 ≤ 63.
Proof.
  intros cs.
  destruct (quality_stays_in_range cs (EspCameraDriver.mkLibrary false 0)) as [Hq _].
  - repeat constructor; simpl; lia.
  - exact Hq.
Defined.

Lemma gives_up_after_five_witness :
  let s := WiFiManager.mk 5 0 6 in
  let events := [(WiFiManager.WIFI_EVENT, 5); (WiFiManager.OTHER_EVENT, 0);
                 (WiFiManager.WIFI_EVENT, 5)] in
  let s' := WiFiManager.handle_all (H:=WiFiManager.esp_idf) events s in
  WiFiManager.connects s' = 6 ∧ WiFiManager.retry_count_ s' = 5.
Proof.
  intros s events s'.
  destruct (gives_up_after_five (idf:=WiFiManager.esp_idf) s events) as (Hc & Hr & _).
  - reflexivity.
  - repeat constructor.
  - split; [exact Hc|exact Hr].
Defined.
